(** * The launcher of [index.js]: restart loop of the bot child process

    A shallow embedding of the supervision part of [index.js]: the module
    variables ([child], [restarting], [currentDelay], [restartTimer],
    [global.countRestart]) are the fields of a record that every function
    takes and returns; the Node.js runtime the launcher talks to (the
    [ChildProcess] objects returned by [spawn], the timers armed by
    [setTimeout]) is kept in two finite maps beside them; every call the
    launcher makes to the outside world ([logger], [spawn], [setTimeout],
    [clearTimeout], [kill]) is appended to an output trace.

    Numbers are JavaScript doubles in the source.  The delays are modelled
    as rationals: every value the launcher computes from 2000, 1.5 and
    60000 is a dyadic rational far below 2^53, on which double arithmetic
    is exact. *)

From Stdlib Require Import QArith Qround Qminmax Lqa ZArith Lia Sorted.
From stdpp Require Import gmap strings list.

(** ** Values that appear in log lines *)

Inductive jsval :=
| JNull
| JUndefined
| JNum (z : Z)
| JStr (s : string).

(** A template literal: literal chunks and interpolated values. *)
Inductive piece :=
| Txt (s : string)
| Val (v : jsval).

Definition text := list piece.

Definition ofCode (code : option Z) : jsval :=
  match code with Some c => JNum c | None => JNull end.

Definition ofSignal (signal : option string) : jsval :=
  match signal with Some s => JStr s | None => JNull end.

(** [Math.round]: the nearest integer, halves towards +infinity. *)
Definition Math_round (x : Q) : Z := Qfloor (x + (1 # 2)).

(** ** The runtime objects *)

Definition handle := positive.
Definition timer := positive.
Bind Scope positive_scope with handle timer.

(** The fields of a [ChildProcess] that the launcher reads, and that Node
    writes: [killed] is set by [kill()], [exitCode] and [signalCode] when
    the process ends ([exitCode] stays [null] for a process ended by a
    signal); [closed] records that ['close'] was emitted. *)
Record Proc := {
  killed : bool;
  exitCode : option Z;
  signalCode : option string;
  closed : bool
}.

Definition newProc : Proc :=
  {| killed := false; exitCode := None; signalCode := None; closed := false |}.

Definition hasExited (p : Proc) : bool :=
  match exitCode p, signalCode p with
  | None, None => false
  | _, _ => true
  end.

(** What the launcher does to the outside world. *)
Inductive Effect :=
| Log (tag : string) (msg : text)
| Spawn (h : handle)
| SetTimeout (t : timer) (delay : Q)
| ClearTimeout (t : timer)
| Kill (h : handle) (signal : string).

(** ** Backoff config *)

Module BACKOFF.
Definition initial : Q := 2000.
Definition max : Q := 60000.
Definition factor : Q := 3 # 2.
End BACKOFF.

(** ** The launcher state *)

Record State := {
  (* module variables of index.js *)
  port : jsval;
  scriptPath : string;
  child : option handle;
  restarting : bool;
  currentDelay : Q;
  restartTimer : option timer;
  countRestart : Z;
  (* the runtime *)
  procs : gmap handle Proc;
  timers : gmap timer Q;
  (* calls made so far, oldest first *)
  out : list Effect
}.

Definition set_child (c : option handle) (st : State) : State :=
  {| port := port st; scriptPath := scriptPath st; child := c;
     restarting := restarting st; currentDelay := currentDelay st;
     restartTimer := restartTimer st; countRestart := countRestart st;
     procs := procs st; timers := timers st; out := out st |}.

Definition set_restarting (b : bool) (st : State) : State :=
  {| port := port st; scriptPath := scriptPath st; child := child st;
     restarting := b; currentDelay := currentDelay st;
     restartTimer := restartTimer st; countRestart := countRestart st;
     procs := procs st; timers := timers st; out := out st |}.

Definition set_currentDelay (d : Q) (st : State) : State :=
  {| port := port st; scriptPath := scriptPath st; child := child st;
     restarting := restarting st; currentDelay := d;
     restartTimer := restartTimer st; countRestart := countRestart st;
     procs := procs st; timers := timers st; out := out st |}.

Definition set_restartTimer (t : option timer) (st : State) : State :=
  {| port := port st; scriptPath := scriptPath st; child := child st;
     restarting := restarting st; currentDelay := currentDelay st;
     restartTimer := t; countRestart := countRestart st;
     procs := procs st; timers := timers st; out := out st |}.

Definition set_countRestart (n : Z) (st : State) : State :=
  {| port := port st; scriptPath := scriptPath st; child := child st;
     restarting := restarting st; currentDelay := currentDelay st;
     restartTimer := restartTimer st; countRestart := n;
     procs := procs st; timers := timers st; out := out st |}.

Definition set_procs (ps : gmap handle Proc) (st : State) : State :=
  {| port := port st; scriptPath := scriptPath st; child := child st;
     restarting := restarting st; currentDelay := currentDelay st;
     restartTimer := restartTimer st; countRestart := countRestart st;
     procs := ps; timers := timers st; out := out st |}.

Definition set_timers (ts : gmap timer Q) (st : State) : State :=
  {| port := port st; scriptPath := scriptPath st; child := child st;
     restarting := restarting st; currentDelay := currentDelay st;
     restartTimer := restartTimer st; countRestart := countRestart st;
     procs := procs st; timers := ts; out := out st |}.

Definition emit (e : Effect) (st : State) : State :=
  {| port := port st; scriptPath := scriptPath st; child := child st;
     restarting := restarting st; currentDelay := currentDelay st;
     restartTimer := restartTimer st; countRestart := countRestart st;
     procs := procs st; timers := timers st; out := out st ++ [e] |}.

(** ** Runtime calls *)

Definition logger (msg : text) (tag : string) (st : State) : State :=
  emit (Log tag msg) st.

(** [setTimeout(cb, delay)]: a new timer object, armed. *)
Definition setTimeout (delay : Q) (st : State) : timer * State :=
  let t := fresh (dom (timers st)) in
  (t, emit (SetTimeout t delay) (set_timers (<[t := delay]> (timers st)) st)).

(** [clearTimeout(t)]: disarms [t]; nothing happens if it is not armed. *)
Definition clearTimeout (t : timer) (st : State) : State :=
  emit (ClearTimeout t) (set_timers (delete t (timers st)) st).

(** How the call [spawn(process.execPath, [scriptPath], ...)] can end.  It
    returns a [ChildProcess] with its pipes: then a process that could not
    be started (EACCES, ENOENT, EAGAIN) is reported later, by its ['error']
    event.  For EMFILE and ENFILE it returns a [ChildProcess] that has no
    [stdout] and no [stderr].  For any other error it throws. *)
Inductive SpawnResult :=
| SpawnReturns
| SpawnNoPipes (errno : Z)
| SpawnThrows (errno : Z).

(** What [spawnChild] can raise: the exception thrown by [spawn], and the
    [TypeError] of [proc.stdout.on] when [proc.stdout] is undefined. *)
Inductive Exception :=
| SpawnException (errno : Z)
| StdoutTypeError.

(** How a call of [startBot] ends, and the state it leaves. *)
Inductive Completion :=
| Returned (st : State)
| Raised (e : Exception) (st : State).

(** [spawn(...)] when it returns a [ChildProcess] with its pipes
    ([SpawnReturns]): a new process object.  The other endings of the call
    are in [spawnChildR]. *)
Definition spawn (st : State) : handle * State :=
  let h := fresh (dom (procs st)) in
  (h, emit (Spawn h) (set_procs (<[h := newProc]> (procs st)) st)).

(** [proc.kill(signal)]: while the process has not ended the signal is
    sent and [killed] becomes true; the process ends later, if at all.
    On a process that has ended the call changes nothing. *)
Definition kill (h : handle) (signal : string) (st : State) : State :=
  match procs st !! h with
  | Some p =>
      if hasExited p then emit (Kill h signal) st
      else
        emit (Kill h signal)
          (set_procs (<[h := {| killed := true; exitCode := exitCode p;
                                signalCode := signalCode p;
                                closed := closed p |}]> (procs st)) st)
  | None => st
  end.

(** ** The functions of index.js *)

(** Modelled from the spec: the end of [scheduleRestartWithBackoff] is
    missing from the source file, and with it the computation of the next
    delay.  Section 4.1 gives its contract:
    [newDelay = min(current * factor, max)]. *)
Definition nextDelay (current : Q) : Q :=
  Qmin (current * BACKOFF.factor) BACKOFF.max.

(** Modelled from the spec: the source file stops inside the [setTimeout]
    call of [scheduleRestartWithBackoff], before its second argument.  By
    sections 4.3 and 8 the restart is deferred by the current delay, the
    one in the log line. *)
Definition restartDelay (st : State) : Q := currentDelay st.

(** Modelled from the spec: what [scheduleRestartWithBackoff] does after
    the [setTimeout] call is missing from the source file.  By section 4.3
    the next delay is computed from the current one by the Backoff
    Policy. *)
Definition advanceDelay (st : State) : State :=
  set_currentDelay (nextDelay (currentDelay st)) st.

(** [scheduleRestartWithBackoff(reason)]: the log line with the current
    delay, the cancellation of the timer held in [restartTimer], the new
    timer stored in [restartTimer]. *)
Definition scheduleRestartWithBackoff (reason : text) (st : State) : State :=
  let st :=
    logger (reason ++ [Txt ". Scheduling restart in ";
                       Val (JNum (Math_round (currentDelay st / 1000)));
                       Txt "s"]) "[ Restart ]" st in
  let st :=
    match restartTimer st with
    | Some t => clearTimeout t st
    | None => st
    end in
  let (t, st) := setTimeout (restartDelay st) st in
  let st := set_restartTimer (Some t) st in
  advanceDelay st.

(** [spawnChild()]: [null] when the script is missing, else the process
    object.  [scriptExists] is the answer of [fs.existsSync(scriptPath)]. *)
Definition spawnChild (scriptExists : bool) (st : State)
  : option handle * State :=
  if negb scriptExists then
    (None,
     logger [Txt "Target script not found: "; Val (JStr (scriptPath st))]
       "[ Error ]" st)
  else
    let (proc, st) := spawn st in
    (Some proc, st).

(** [spawnChild()] with every ending of the [spawn] call.  There is no
    [try] in [spawnChild]: an exception of [spawn], or of the wiring of
    [proc.stdout], leaves the function at once; the process object of
    [SpawnNoPipes] is then dropped, unwired. *)
Definition spawnChildR (scriptExists : bool) (r : SpawnResult) (st : State)
  : (option handle * State) + (Exception * State) :=
  if negb scriptExists then
    inl (None,
         logger [Txt "Target script not found: "; Val (JStr (scriptPath st))]
           "[ Error ]" st)
  else
    match r with
    | SpawnReturns => let (proc, st) := spawn st in inl (Some proc, st)
    | SpawnNoPipes _ => inr (StdoutTypeError, st)
    | SpawnThrows errno => inr (SpawnException errno, st)
    end.

(** The test at the head of [startBot]:
    [child && !child.killed && child.exitCode === null]. *)
Definition childRunning (st : State) : bool :=
  match child st with
  | Some h =>
      match procs st !! h with
      | Some p =>
          negb (killed p) && match exitCode p with None => true | _ => false end
      | None => false
      end
  | None => false
  end.

(** A string is truthy unless it is empty; [undefined] is falsy. *)
Definition truthy (message : option string) : bool :=
  match message with
  | Some s => negb (String.eqb s "")
  | None => false
  end.

Definition ofMessage (message : option string) : text :=
  match message with
  | Some s => [Txt s]
  | None => [Val JUndefined]
  end.

(** [startBot(message)] on the paths where the [spawn] call, if it is
    made, returns a process with its pipes; [startBotR] below has every
    path. *)
Definition startBot (message : option string) (scriptExists : bool)
  (st : State) : State :=
  let st :=
    if truthy message then logger (ofMessage message) "[ Starting ]" st
    else st in
  if childRunning st then
    logger [Txt "Child already running, skipping spawn."] "[ Info ]" st
  else
    let (c, st) := spawnChild scriptExists st in
    let st := set_child c st in
    match c with
    | None =>
        scheduleRestartWithBackoff [Txt "Spawn failed - scheduling retry"] st
    | Some _ =>
        let st := set_currentDelay BACKOFF.initial st in
        set_countRestart 0 st
    end.

(** [startBot(message)] with every ending of the [spawn] call.  There is
    no [try] in [startBot] either: what [spawnChild] raises reaches the
    caller, before [child] is assigned. *)
Definition startBotR (message : option string) (scriptExists : bool)
  (r : SpawnResult) (st : State) : Completion :=
  let st :=
    if truthy message then logger (ofMessage message) "[ Starting ]" st
    else st in
  if childRunning st then
    Returned
      (logger [Txt "Child already running, skipping spawn."] "[ Info ]" st)
  else
    match spawnChildR scriptExists r st with
    | inr (e, st) => Raised e st
    | inl (c, st) =>
        let st := set_child c st in
        match c with
        | None =>
            Returned
              (scheduleRestartWithBackoff
                 [Txt "Spawn failed - scheduling retry"] st)
        | Some _ =>
            let st := set_currentDelay BACKOFF.initial st in
            Returned (set_countRestart 0 st)
        end
    end.

(** The handlers wired by [spawnChild] and [startBot]. *)

Definition onChildError (message : string) (st : State) : State :=
  logger [Txt "Child process error: "; Val (JStr message)] "[ Child Error ]" st.

Definition onChildSpawn (pid : jsval) (st : State) : State :=
  logger [Txt "Child spawned (pid="; Val pid; Txt ")"] "[ Child ]" st.

Definition onChildClose (code : option Z) (signal : option string)
  (st : State) : State :=
  let st :=
    logger [Txt "Child closed. code="; Val (ofCode code);
            Txt " signal="; Val (ofSignal signal)] "[ Child ]" st in
  if restarting st then
    logger [Txt "Restart in progress by launcher - not scheduling additional restart."]
      "[ Info ]" st
  else
    scheduleRestartWithBackoff
      [Txt "Child exited (code="; Val (ofCode code); Txt ")"] st.

Definition onChildExit (code : option Z) (signal : option string)
  (st : State) : State :=
  logger [Txt "Child exited. code="; Val (ofCode code);
          Txt " signal="; Val (ofSignal signal)] "[ Child ]" st.

(** Modelled from the spec: the callback given to [setTimeout] is cut in
    the source file after [restartTimer = null], at [global.countRest].  By
    section 4.3 the restart counter is incremented and the deferred call is
    [start()]. *)
Definition deferredStart (scriptExists : bool) (st : State) : State :=
  let st := set_countRestart (countRestart st + 1) st in
  startBot None scriptExists st.

(** The callback given to [setTimeout]: it clears [restartTimer] first. *)
Definition restartTimerCallback (scriptExists : bool) (st : State) : State :=
  let st := set_restartTimer None st in
  deferredStart scriptExists st.

(** The handlers of the HTTP server. *)

Definition onListening (st : State) : State :=
  logger [Txt "Server is running on port "; Val (port st); Txt "..."]
    "[ Starting ]" st.

Definition onServerError (code : string) (message : string) (st : State)
  : State :=
  if String.eqb code "EACCES" then
    logger [Txt "Permission denied. Cannot bind to port "; Val (port st);
            Txt "."] "[ Error ]" st
  else
    logger [Txt "Server error: "; Val (JStr message)] "[ Error ]" st.

(** Modelled from the spec: the signal handlers are missing from the source
    file.  Section 4.2: [terminate(handle, signal)] requests termination and
    does not guarantee immediate death; on a [ChildProcess] that is
    [kill(signal)]. *)
Definition terminate (h : handle) (signal : string) (st : State) : State :=
  kill h signal st.

(** Modelled from the spec: [shutdown(signal)] is missing from the source
    file.  Sections 4.3 and 5: the launcher enters ShuttingDown (the flag
    [restarting] that the ['close'] handler tests), a pending restart timer
    is cancelled, and a child that is alive is sent [terminate].  The
    bounded wait for the exit and the end of the launcher process are not
    part of the model: they only end the sequence of events. *)
Definition shutdown (signal : string) (st : State) : State :=
  let st := set_restarting true st in
  let st :=
    match restartTimer st with
    | Some t => set_restartTimer None (clearTimeout t st)
    | None => st
    end in
  if childRunning st then
    match child st with
    | Some h => terminate h signal st
    | None => st
    end
  else st.

(** ** Events: the launcher as a transition system

    Node runs one handler at a time.  An event is what the event loop
    delivers, together with the answers of the environment that the handler
    will read ([scriptExists] for [fs.existsSync]).  The events are those
    whose handler returns: a call of [startBot] in which [spawn] raises is
    [startBotR], and nothing is said here of what follows it. *)

Inductive Event :=
| EvStart (message : option string) (scriptExists : bool)
| EvTimer (t : timer) (scriptExists : bool)
| EvChildSpawn (h : handle) (pid : jsval)
| EvChildError (h : handle) (errno : Z) (message : string)
| EvChildExit (h : handle) (status : Z + string)
| EvChildClose (h : handle)
| EvShutdown (signal : string)
| EvListening
| EvServerError (code : string) (message : string).

(** Node stores how the process ended before it emits ['exit']: the signal
    if there is one, else the exit code. *)
Definition recordExit (status : Z + string) (p : Proc) : Proc :=
  match status with
  | inl code =>
      {| killed := killed p; exitCode := Some code;
         signalCode := signalCode p; closed := closed p |}
  | inr signal =>
      {| killed := killed p; exitCode := exitCode p;
         signalCode := Some signal; closed := closed p |}
  end.

Definition markClosed (p : Proc) : Proc :=
  {| killed := killed p; exitCode := exitCode p;
     signalCode := signalCode p; closed := true |}.

(** One event.  [None]: the runtime cannot deliver this event in this state
    (a timer that is not armed, a process that does not exist or has
    already ended, ['close'] before the end of the process or twice). *)
Definition step (ev : Event) (st : State) : option State :=
  match ev with
  | EvStart message scriptExists => Some (startBot message scriptExists st)
  | EvTimer t scriptExists =>
      match timers st !! t with
      | Some _ =>
          Some (restartTimerCallback scriptExists
                  (set_timers (delete t (timers st)) st))
      | None => None
      end
  | EvChildSpawn h pid =>
      match procs st !! h with
      | Some p => if hasExited p then None else Some (onChildSpawn pid st)
      | None => None
      end
  | EvChildError h errno message =>
      (* a failed spawn: Node stores the error number as exit code *)
      match procs st !! h with
      | Some p =>
          if hasExited p then None
          else Some (onChildError message
                       (set_procs (<[h := recordExit (inl errno) p]> (procs st)) st))
      | None => None
      end
  | EvChildExit h status =>
      match procs st !! h with
      | Some p =>
          if hasExited p then None
          else
            let p' := recordExit status p in
            Some (onChildExit (exitCode p') (signalCode p')
                    (set_procs (<[h := p']> (procs st)) st))
      | None => None
      end
  | EvChildClose h =>
      match procs st !! h with
      | Some p =>
          if hasExited p && negb (closed p) then
            Some (onChildClose (exitCode p) (signalCode p)
                    (set_procs (<[h := markClosed p]> (procs st)) st))
          else None
      | None => None
      end
  | EvShutdown signal => Some (shutdown signal st)
  | EvListening => Some (onListening st)
  | EvServerError code message => Some (onServerError code message st)
  end.

Fixpoint run (evs : list Event) (st : State) : option State :=
  match evs with
  | [] => Some st
  | ev :: evs' =>
      match step ev st with
      | Some st' => run evs' st'
      | None => None
      end
  end.

(** The state when the module has been loaded: [process.env.PORT || 8080],
    [child = null], [restarting = false], [currentDelay = BACKOFF.initial],
    [restartTimer = null], [global.countRestart = 0]. *)
Definition init (envPort : option string) (path : string) : State :=
  {| port := if truthy envPort
             then match envPort with Some s => JStr s | None => JUndefined end
             else JNum 8080;
     scriptPath := path;
     child := None;
     restarting := false;
     currentDelay := BACKOFF.initial;
     restartTimer := None;
     countRestart := 0;
     procs := ∅;
     timers := ∅;
     out := [] |}.

Definition reachable (st : State) : Prop :=
  ∃ envPort path evs, run evs (init envPort path) = Some st.

(** ** What the output trace shows *)

(** The delays of the restarts that were scheduled, oldest first. *)
Fixpoint scheduledDelays (es : list Effect) : list Q :=
  match es with
  | [] => []
  | SetTimeout _ d :: es' => d :: scheduledDelays es'
  | _ :: es' => scheduledDelays es'
  end.

(** The processes that were spawned, oldest first. *)
Fixpoint spawned (es : list Effect) : list handle :=
  match es with
  | [] => []
  | Spawn h :: es' => h :: spawned es'
  | _ :: es' => spawned es'
  end.

(** The processes that have not ended. *)
Definition liveHandles (st : State) : list handle :=
  (map_to_list (filter (λ hp, hasExited hp.2 = false) (procs st))).*1.

(** An event whose handler makes a spawn attempt that returns a process. *)
Definition spawnsChild (ev : Event) (st : State) : bool :=
  match ev with
  | EvStart _ scriptExists => negb (childRunning st) && scriptExists
  | EvTimer _ scriptExists => negb (childRunning st) && scriptExists
  | _ => false
  end.

(** Events delivered by the runtime, as opposed to a call of [startBot]. *)
Definition fromRuntime (ev : Event) : bool :=
  match ev with
  | EvStart _ _ => false
  | _ => true
  end.


(** ** Invariants *)

(** The delay stays between the configured bounds. *)
Definition delayInv (st : State) : Prop :=
  (BACKOFF.initial <= currentDelay st)%Q ∧ (currentDelay st <= BACKOFF.max)%Q.

(** The only armed timer is the one held in [restartTimer]. *)
Definition timerInv (st : State) : Prop :=
  match restartTimer st with
  | Some t => ∃ d, timers st = {[ t := d ]}
  | None => timers st = ∅
  end.

(** What one handler does to the delay, seen with the calls [news] it made:
    nothing; or a restart was scheduled with the current delay and the
    delay moved to the next one; or a process was spawned and the delay is
    back at the initial one. *)
Definition delayStep (st st' : State) (news : list Effect) : Prop :=
  (scheduledDelays news = [] ∧ spawned news = []
   ∧ currentDelay st' = currentDelay st)
  ∨ (scheduledDelays news = [currentDelay st] ∧ spawned news = []
     ∧ currentDelay st' = nextDelay (currentDelay st))
  ∨ (scheduledDelays news = [] ∧ (∃ h, spawned news = [h])
     ∧ currentDelay st' = BACKOFF.initial).

(** The calls made between two states of a run. *)
Definition newEffects (st st' : State) : list Effect :=
  drop (length (out st)) (out st').

Arguments scheduleRestartWithBackoff : simpl never.
Arguments startBot : simpl never.
Arguments shutdown : simpl never.
Arguments onChildClose : simpl never.
Arguments nextDelay : simpl never.

(** Every restart scheduled so far was deferred by a delay within the
    configured bounds. *)
Definition schedInv (st : State) : Prop :=
  Forall (λ d, (BACKOFF.initial <= d)%Q ∧ (d <= BACKOFF.max)%Q)
    (scheduledDelays (out st)).

(** A launcher in a fixed directory, with no [PORT] in the environment. *)
Definition launched : State := init None "/app/Priyansh.js".

(** Three children in a row that are spawned and exit with code 1. *)
Definition threeCrashes : list Event :=
  [EvStart None true; EvChildExit 1 (inl 1%Z); EvChildClose 1;
   EvTimer 1 true; EvChildExit 2 (inl 1%Z); EvChildClose 2;
   EvTimer 1 true; EvChildExit 3 (inl 1%Z); EvChildClose 3].

(** Three spawn attempts in a row that find no script. *)
Definition threeFailedSpawns : list Event :=
  [EvStart None false; EvTimer 1 false; EvTimer 1 false].

(** The state after the first statement of [startBot]:
    [if (message) logger(message, "[ Starting ]")]. *)
Definition announced (message : option string) (st : State) : State :=
  if truthy message then logger (ofMessage message) "[ Starting ]" st else st.

(** The state in which [startBot] leaves a spawn that returned process [h]. *)
Definition started (h : handle) (st : State) : State :=
  set_countRestart 0
    (set_currentDelay BACKOFF.initial
       (set_child (Some h)
          (emit (Spawn h) (set_procs (<[h := newProc]> (procs st)) st)))).

(** The processes that have not ended and were not sent a signal by the
    launcher. *)
Definition activeHandles (st : State) : list handle :=
  (map_to_list
     (filter (λ hp, hasExited hp.2 = false ∧ killed hp.2 = false)
        (procs st))).*1.

(** A process that has not ended and was not sent a signal is the one held
    in [child]. *)
Definition procInv (st : State) : Prop :=
  ∀ h p, procs st !! h = Some p →
         hasExited p = false → killed p = false → child st = Some h.

(** A child is started, the launcher is told to shut down, and [startBot]
    is called again before the child has ended. *)
Definition startAfterTerminate : list Event :=
  [EvStart None true; EvShutdown "SIGTERM"; EvStart None true].

(** The state [st] with another output trace: the variables of the
    launcher and the runtime objects are those of [st]. *)
Definition setOut (o : list Effect) (st : State) : State :=
  {| port := port st; scriptPath := scriptPath st; child := child st;
     restarting := restarting st; currentDelay := currentDelay st;
     restartTimer := restartTimer st; countRestart := countRestart st;
     procs := procs st; timers := timers st; out := o |}.

Definition isTimer (ev : Event) : bool :=
  match ev with
  | EvTimer _ _ => true
  | _ => false
  end.

(** The value of [global.countRestart] after the handler of [ev]. *)
Definition countAfter (ev : Event) (st : State) : Z :=
  if spawnsChild ev st then 0%Z
  else if isTimer ev then (countRestart st + 1)%Z
  else countRestart st.


(** Two states with the same pending restart, the same current delay and
    the same restart counter. *)
Definition sameSchedule (a b : State) : Prop :=
  timers a = timers b ∧ restartTimer a = restartTimer b
  ∧ currentDelay a = currentDelay b ∧ countRestart a = countRestart b.

(** When timer [t] fires in state [st], the launcher makes a new spawn
    attempt: it spawns a process if the script is there, and schedules the
    next retry if it is not. *)
Definition retriesAfter (t : timer) (st : State) : Prop :=
  ∀ scriptExists : bool,
    ∃ st', step (EvTimer t scriptExists) st = Some st'
           ∧ if scriptExists return Prop
             then ∃ h, spawned (newEffects st st') = [h]
             else scheduledDelays (newEffects st st') = [currentDelay st].

(** The signals the launcher sent, oldest first. *)
Fixpoint kills (es : list Effect) : list (handle * string) :=
  match es with
  | [] => []
  | Kill h signal :: es' => (h, signal) :: kills es'
  | _ :: es' => kills es'
  end.

(** Node emits ['close'] only for a process that has ended. *)
Definition closedInv (st : State) : Prop :=
  ∀ h p, procs st !! h = Some p → closed p = true → hasExited p = true.

(** A process marked [killed] was sent a signal by the launcher. *)
Definition killedInv (st : State) : Prop :=
  ∀ h p, procs st !! h = Some p → killed p = true → kills (out st) ≠ [].

(** The child [h] was ended by a signal that the launcher did not send: it
    has a signal code, no exit code, and is not marked [killed]. *)
Definition endedBySignal (h : handle) (st : State) : Prop :=
  child st = Some h
  ∧ ∃ p, procs st !! h = Some p ∧ killed p = false ∧ exitCode p = None
         ∧ hasExited p = true.

(** What can happen to a [ChildProcess] object during one event: nothing,
    the end of the process, the emission of ['close'], a signal sent by the
    launcher. *)
Inductive procMove : Proc → Proc → Prop :=
| MoveStay p : procMove p p
| MoveExit p status : hasExited p = false → procMove p (recordExit status p)
| MoveClose p :
    hasExited p = true → closed p = false → procMove p (markClosed p)
| MoveKill p :
    hasExited p = false →
    procMove p {| killed := true; exitCode := exitCode p;
                  signalCode := signalCode p; closed := closed p |}.

(** A child that exits at once, a retry that finds no script, a retry that
    spawns a child, which exits at once too. *)
Definition crashFailCrash : list Event :=
  [EvStart None true; EvChildExit 1 (inl 1%Z); EvChildClose 1;
   EvTimer 1 false;
   EvTimer 1 true; EvChildExit 2 (inl 1%Z); EvChildClose 2].

(** A child that exits at once, then two retries that find no script. *)
Definition crashThenFailedSpawns : list Event :=
  [EvChildExit 1 (inl 1%Z); EvChildClose 1; EvTimer 1 false; EvTimer 1 false].

(** ** The restart timer *)

Lemma timerInv_emit e st : timerInv st → timerInv (emit e st).
Proof. exact id. Qed.

(** After [scheduleRestartWithBackoff] exactly one timer is armed, with the
    delay that was current at the call. *)
Lemma schedule_timers reason st :
  timerInv st →
  ∃ t, restartTimer (scheduleRestartWithBackoff reason st) = Some t
       ∧ timers (scheduleRestartWithBackoff reason st)
         = {[ t := currentDelay st ]}.
Proof.
  unfold timerInv, scheduleRestartWithBackoff, restartDelay, advanceDelay.
  simpl.
  destruct (restartTimer st) as [t|]; simpl.
  - intros [d ->]. rewrite delete_singleton_eq, insert_empty. eauto.
  - intros ->. rewrite insert_empty. eauto.
Qed.

Lemma timerInv_schedule reason st :
  timerInv st → timerInv (scheduleRestartWithBackoff reason st).
Proof.
  intros H. destruct (schedule_timers reason st H) as (t & Ht & Hts).
  unfold timerInv. rewrite Ht. eauto.
Qed.

Lemma timerInv_startBot message scriptExists st :
  timerInv st → timerInv (startBot message scriptExists st).
Proof.
  intros H. unfold startBot.
  set (st1 := if truthy message then _ else st).
  assert (H1 : timerInv st1) by (subst st1; destruct (truthy message); exact H).
  clearbody st1. destruct (childRunning st1); [exact H1|].
  destruct scriptExists; simpl; [exact H1|].
  apply timerInv_schedule. exact H1.
Qed.

Lemma timerInv_shutdown signal st : timerInv st → timerInv (shutdown signal st).
Proof.
  intros H. unfold shutdown.
  set (st1 := match restartTimer _ with Some t => _ | None => _ end).
  assert (H1 : timerInv st1).
  { subst st1. unfold timerInv in *. simpl.
    destruct (restartTimer st) as [t|] eqn:Hrt; simpl; [|by rewrite Hrt].
    destruct H as [d ->]. apply delete_singleton_eq. }
  clearbody st1. destruct (childRunning st1); [|exact H1].
  destruct (child st1) as [h|]; [|exact H1].
  unfold terminate, kill. destruct (procs st1 !! h) as [p|]; [|exact H1].
  destruct (hasExited p); exact H1.
Qed.

Lemma timerInv_close code signal st :
  timerInv st → timerInv (onChildClose code signal st).
Proof.
  intros H. unfold onChildClose. simpl.
  destruct (restarting st); [exact H|].
  apply timerInv_schedule. exact H.
Qed.

(** Only the timer held in [restartTimer] can fire; its callback runs with
    no timer armed. *)
Lemma timerInv_fired t st :
  timerInv st → is_Some (timers st !! t) →
  restartTimer st = Some t ∧ delete t (timers st) = ∅.
Proof.
  unfold timerInv. destruct (restartTimer st) as [t0|].
  - intros [d ->] [x Hx]. apply lookup_singleton_Some in Hx as [-> _].
    split; [reflexivity|apply delete_singleton_eq].
  - intros -> [x Hx]. rewrite lookup_empty in Hx. discriminate.
Qed.

Lemma timerInv_step ev st st' :
  timerInv st → step ev st = Some st' → timerInv st'.
Proof.
  intros H Hstep. destruct ev; simpl in Hstep.
  - simplify_eq. by apply timerInv_startBot.
  - destruct (timers st !! t) eqn:Ht; simplify_eq.
    destruct (timerInv_fired t st H) as [_ Hdel]; [eauto|].
    unfold restartTimerCallback, deferredStart. apply timerInv_startBot.
    unfold timerInv. simpl. exact Hdel.
  - destruct (procs st !! h); [|done]. destruct (hasExited _); simplify_eq.
    exact H.
  - destruct (procs st !! h); [|done]. destruct (hasExited _); simplify_eq.
    exact H.
  - destruct (procs st !! h); [|done]. destruct (hasExited _); simplify_eq.
    exact H.
  - destruct (procs st !! h); [|done].
    destruct (hasExited _ && _); simplify_eq.
    apply timerInv_close. exact H.
  - simplify_eq. by apply timerInv_shutdown.
  - simplify_eq. exact H.
  - simplify_eq. unfold onServerError. destruct (String.eqb _ _); exact H.
Qed.

(** A property kept by every event holds along every run. *)
Lemma run_preserves (I : State → Prop) :
  (∀ ev st st', I st → step ev st = Some st' → I st') →
  ∀ evs st st', I st → run evs st = Some st' → I st'.
Proof.
  intros Hstep evs. induction evs as [|ev evs IH]; simpl; intros st st' HI Hrun.
  - by simplify_eq.
  - destruct (step ev st) as [st1|] eqn:H1; [|done]. eauto.
Qed.

Lemma reachable_invariant (I : State → Prop) :
  (∀ envPort path, I (init envPort path)) →
  (∀ ev st st', I st → step ev st = Some st' → I st') →
  ∀ st, reachable st → I st.
Proof.
  intros Hinit Hstep st (envPort & path & evs & Hrun).
  eapply run_preserves; eauto.
Qed.

Lemma run_app evs1 evs2 st :
  run (evs1 ++ evs2) st = match run evs1 st with
                          | Some st1 => run evs2 st1
                          | None => None
                          end.
Proof.
  revert st. induction evs1 as [|ev evs1 IH]; simpl; intros st; [done|].
  destruct (step ev st); [apply IH|done].
Qed.

Lemma reachable_run evs st st' :
  reachable st → run evs st = Some st' → reachable st'.
Proof.
  intros (envPort & path & evs0 & H0) Hrun.
  exists envPort, path, (evs0 ++ evs). rewrite run_app, H0. exact Hrun.
Qed.

Lemma timerInv_reachable st : reachable st → timerInv st.
Proof.
  apply reachable_invariant; [reflexivity|apply timerInv_step].
Qed.

(** ** The delay *)

Lemma scheduledDelays_app es1 es2 :
  scheduledDelays (es1 ++ es2) = scheduledDelays es1 ++ scheduledDelays es2.
Proof.
  induction es1 as [|[] es1 IH]; simpl; [done|..]; by rewrite ?IH.
Qed.

Lemma spawned_app es1 es2 : spawned (es1 ++ es2) = spawned es1 ++ spawned es2.
Proof.
  induction es1 as [|[] es1 IH]; simpl; [done|..]; by rewrite ?IH.
Qed.

Lemma newEffects_app st st' news :
  out st' = out st ++ news → newEffects st st' = news.
Proof. unfold newEffects. intros ->. by rewrite drop_app_length. Qed.

Lemma nextDelay_bounds d :
  (BACKOFF.initial <= d)%Q → (d <= BACKOFF.max)%Q →
  (BACKOFF.initial <= nextDelay d)%Q ∧ (nextDelay d <= BACKOFF.max)%Q
  ∧ (d <= nextDelay d)%Q.
Proof.
  unfold nextDelay, BACKOFF.initial, BACKOFF.max, BACKOFF.factor.
  intros H1 H2. repeat split.
  - apply Q.min_glb; lra.
  - apply Q.le_min_r.
  - apply Q.min_glb; lra.
Qed.

Ltac solve_out :=
  simpl; rewrite <- ?app_assoc; simpl;
  first [ eexists; split; [reflexivity|]
        | exists []; split; [symmetry; apply app_nil_r|] ].

Lemma schedule_effects reason st :
  ∃ news, out (scheduleRestartWithBackoff reason st) = out st ++ news
          ∧ scheduledDelays news = [currentDelay st] ∧ spawned news = []
          ∧ currentDelay (scheduleRestartWithBackoff reason st)
            = nextDelay (currentDelay st).
Proof.
  unfold scheduleRestartWithBackoff, restartDelay, advanceDelay; simpl.
  destruct (restartTimer st); simpl; solve_out; auto.
Qed.

Ltac use_schedule_effects :=
  match goal with
  | |- context [scheduleRestartWithBackoff ?r ?s] =>
      destruct (schedule_effects r s) as (news & Ho & Hd & Hs & Hc);
      rewrite Ho, Hc; clear Ho Hc
  end.

Lemma startBot_effects message scriptExists st :
  ∃ news, out (startBot message scriptExists st) = out st ++ news
          ∧ delayStep st (startBot message scriptExists st) news.
Proof.
  unfold startBot, delayStep.
  destruct (truthy message); cbn.
  - destruct (childRunning _); [solve_out; auto|].
    destruct scriptExists; cbn; [solve_out; eauto 10|].
    use_schedule_effects. solve_out. simpl. rewrite Hd, Hs. auto.
  - destruct (childRunning _); [solve_out; auto|].
    destruct scriptExists; cbn; [solve_out; eauto 10|].
    use_schedule_effects. solve_out. simpl. rewrite Hd, Hs. auto.
Qed.

Lemma shutdown_effects signal st :
  ∃ news, out (shutdown signal st) = out st ++ news
          ∧ scheduledDelays news = [] ∧ spawned news = []
          ∧ currentDelay (shutdown signal st) = currentDelay st.
Proof.
  unfold shutdown, terminate, kill.
  destruct (restartTimer st); simpl;
    repeat (case_match; simpl); solve_out; simpl; auto.
Qed.

Lemma close_effects code signal st :
  ∃ news, out (onChildClose code signal st) = out st ++ news
          ∧ delayStep st (onChildClose code signal st) news.
Proof.
  unfold onChildClose, delayStep; cbn.
  destruct (restarting st); [solve_out; auto|].
  use_schedule_effects. solve_out. simpl. rewrite Hd, Hs. auto.
Qed.

Lemma step_effects ev st st' :
  step ev st = Some st' →
  ∃ news, out st' = out st ++ news ∧ delayStep st st' news.
Proof.
  intros Hstep. destruct ev; simpl in Hstep.
  - simplify_eq. apply startBot_effects.
  - destruct (timers st !! t); simplify_eq.
    unfold restartTimerCallback, deferredStart.
    match goal with
    | |- context [startBot None ?e ?s] =>
        destruct (startBot_effects None e s) as (news & Ho & Hd)
    end.
    exists news. split; [exact Ho|exact Hd].
  - repeat case_match; simplify_eq. unfold delayStep. solve_out; auto.
  - repeat case_match; simplify_eq. unfold delayStep. solve_out; auto.
  - repeat case_match; simplify_eq. unfold delayStep. solve_out; auto.
  - repeat case_match; simplify_eq.
    match goal with
    | |- context [onChildClose ?c ?g ?s] =>
        destruct (close_effects c g s) as (news & Ho & Hd)
    end.
    exists news. split; [exact Ho|exact Hd].
  - simplify_eq. destruct (shutdown_effects signal st) as (news & ? & ? & ? & ?).
    exists news. unfold delayStep. auto.
  - simplify_eq. unfold delayStep. solve_out; auto.
  - simplify_eq. unfold delayStep, onServerError.
    destruct (String.eqb _ _); solve_out; auto.
Qed.

Lemma delayInv_step ev st st' :
  delayInv st → step ev st = Some st' → delayInv st'.
Proof.
  intros [H1 H2] Hstep.
  destruct (step_effects _ _ _ Hstep) as (news & _ & Hd).
  unfold delayInv.
  destruct Hd as [(_ & _ & ->)|[(_ & _ & ->)|(_ & _ & ->)]].
  - done.
  - destruct (nextDelay_bounds _ H1 H2) as (? & ? & _). done.
  - unfold BACKOFF.initial, BACKOFF.max. split; lra.
Qed.

Lemma delayInv_init envPort path : delayInv (init envPort path).
Proof.
  unfold delayInv, init; cbn [currentDelay].
  unfold BACKOFF.initial, BACKOFF.max. split; lra.
Qed.

Lemma delayInv_reachable st : reachable st → delayInv st.
Proof.
  apply reachable_invariant; [apply delayInv_init|apply delayInv_step].
Qed.

Lemma schedInv_step ev st st' :
  delayInv st → schedInv st → step ev st = Some st' → schedInv st'.
Proof.
  unfold schedInv. intros Hd Hs Hstep.
  destruct (step_effects _ _ _ Hstep) as (news & -> & Hn).
  rewrite scheduledDelays_app. apply Forall_app. split; [exact Hs|].
  destruct Hn as [(-> & _)|[(-> & _)|(-> & _)]]; auto.
Qed.

Lemma schedInv_reachable st : reachable st → schedInv st.
Proof.
  intros Hr. cut (delayInv st ∧ schedInv st); [tauto|]. revert st Hr.
  apply reachable_invariant.
  - intros. split; [apply delayInv_init|constructor].
  - intros ev st st' [Hd Hs] Hstep.
    split; [eapply delayInv_step|eapply schedInv_step]; eauto.
Qed.

(** Along a run in which no process is spawned, the delays of the restarts
    that are scheduled never decrease, and none is below the delay the run
    started with. *)
Lemma run_delays evs st st' :
  delayInv st → run evs st = Some st' →
  ∃ news, out st' = out st ++ news
          ∧ (spawned news = [] →
             StronglySorted Qle (scheduledDelays news)
             ∧ Forall (Qle (currentDelay st)) (scheduledDelays news)).
Proof.
  revert st. induction evs as [|ev evs IH]; simpl; intros st Hinv Hrun.
  - simplify_eq. exists []. rewrite app_nil_r. repeat constructor.
  - destruct (step ev st) as [st1|] eqn:Hstep; [|done].
    destruct (step_effects _ _ _ Hstep) as (n1 & Ho1 & Hd1).
    destruct (IH st1 (delayInv_step _ _ _ Hinv Hstep) Hrun) as (n2 & Ho2 & Hd2).
    exists (n1 ++ n2). split; [by rewrite Ho2, Ho1, app_assoc|].
    rewrite spawned_app, scheduledDelays_app. intros Hsp.
    apply app_eq_nil in Hsp as [Hs1 Hs2]. destruct (Hd2 Hs2) as [Hsort Hlow].
    destruct Hinv as [Hi Hm].
    destruct (nextDelay_bounds _ Hi Hm) as (_ & _ & Hnext).
    destruct Hd1 as [(-> & _ & Hc)|[(-> & _ & Hc)|(_ & [h Hh] & _)]].
    + rewrite Hc in Hlow. by simpl.
    + rewrite Hc in Hlow. simpl.
      assert (Forall (Qle (currentDelay st)) (scheduledDelays n2)).
      { eapply Forall_impl; [exact Hlow|]. intros d Hd. simpl in Hd.
        eapply Qle_trans; eauto. }
      split; constructor; auto. apply Qle_refl.
    + rewrite Hh in Hs1. discriminate.
Qed.

Lemma reachable_launched : reachable launched.
Proof. exists None, "/app/Priyansh.js", []. reflexivity. Qed.

(** C2, as stated, fails: no child ever runs for more than an instant,
    and yet the delays of the scheduled restarts are 2000, 3000 and then
    2000 again, because the retry that spawns a process puts the delay back
    to [BACKOFF.initial]. *)
Lemma backoff_falls_back_after_spawn :
  ∃ st, run crashFailCrash launched = Some st
        ∧ Forall2 Qeq (scheduledDelays (out st)) [2000; 3000; 2000]%Q
        ∧ ¬ StronglySorted Qle (scheduledDelays (out st)).
Proof.
  eexists. split; [vm_compute; reflexivity|].
  split; [vm_compute; repeat constructor|].
  vm_compute. intros H.
  apply StronglySorted_inv in H as [H _].
  apply StronglySorted_inv in H as [_ H].
  apply Forall_inv in H. apply H. reflexivity.
Qed.

(** C2, amended.  At every point of every execution the current delay
    lies within [BACKOFF.initial, BACKOFF.max], and so does the delay of
    every restart that was scheduled.  Along any stretch of an execution
    in which no spawn returns a process, the delays of the restarts that
    are scheduled, for child exits and failed spawns alike, are
    non-decreasing.  Every event whose spawn returns a process puts the
    delay back to [BACKOFF.initial], whether the child then survives or
    not, and schedules nothing. *)
Theorem backoff_monotone_within_bounds st evs st' :
  reachable st → run evs st = Some st' →
  delayInv st' ∧ schedInv st'
  ∧ (spawned (newEffects st st') = [] →
     StronglySorted Qle (scheduledDelays (newEffects st st')))
  ∧ (∀ ev st'', step ev st' = Some st'' → spawned (newEffects st' st'') ≠ [] →
                currentDelay st'' = BACKOFF.initial
                ∧ scheduledDelays (newEffects st' st'') = []).
Proof.
  intros Hr Hrun.
  assert (Hr' : reachable st') by (eapply reachable_run; eauto).
  split; [by apply delayInv_reachable|].
  split; [by apply schedInv_reachable|].
  split.
  - destruct (run_delays evs st st' (delayInv_reachable _ Hr) Hrun)
      as (news & Hout & Hsorted).
    rewrite (newEffects_app _ _ _ Hout). intros Hsp. by apply Hsorted.
  - intros ev st'' Hstep Hsp.
    destruct (step_effects _ _ _ Hstep) as (news & Hout & Hd).
    rewrite (newEffects_app _ _ _ Hout) in *.
    destruct Hd as [(_ & Hs & _)|[(_ & Hs & _)|(Hd & _ & Hc)]]; done.
Qed.

Lemma backoff_monotone_within_bounds_witness :
  ∃ st st', run [EvStart None true] launched = Some st
            ∧ run crashThenFailedSpawns st = Some st'
            ∧ delayInv st' ∧ schedInv st'
            ∧ Forall2 Qeq (scheduledDelays (newEffects st st'))
                [2000; 3000; 4500]%Q
            ∧ StronglySorted Qle (scheduledDelays (newEffects st st')).
Proof.
  eexists. eexists. split; [vm_compute; reflexivity|].
  split; [vm_compute; reflexivity|].
  match goal with
  | |- delayInv ?b ∧ schedInv ?b ∧ Forall2 _ (_ (newEffects ?a ?b)) _ ∧ _ =>
      destruct (backoff_monotone_within_bounds a crashThenFailedSpawns b)
        as (H1 & H2 & H3 & _)
  end.
  - apply (reachable_run [EvStart None true] launched);
      [apply reachable_launched|vm_compute; reflexivity].
  - vm_compute; reflexivity.
  - split; [exact H1|]. split; [exact H2|].
    split; [vm_compute; repeat constructor|].
    apply H3. vm_compute. reflexivity.
Defined.

(** C1, as stated, fails: three consecutive abnormal exits of children that
    were spawned are each followed by a restart after 2000 ms, not after
    2000, 3000 and 4500 ms, because [startBot] puts the delay back to
    [BACKOFF.initial] each time [spawnChild] returns a process. *)
Lemma three_crashes_same_delay :
  ∃ st, run threeCrashes launched = Some st
        ∧ scheduledDelays (out st) = [2000; 2000; 2000]%Q
        ∧ ¬ Forall2 Qeq (scheduledDelays (out st)) [2000; 3000; 4500]%Q.
Proof.
  eexists. split; [vm_compute; reflexivity|].
  split; [vm_compute; reflexivity|].
  intros H. vm_compute in H.
  inversion H as [|? ? ? ? _ H2]; subst.
  inversion H2 as [|? ? ? ? Hq _]; subst.
  discriminate Hq.
Qed.

(** C1, amended.  The next delay is [min(d * factor, max)] for every
    current delay [d], and [scheduleRestartWithBackoff] defers the restart
    by the current delay and moves to the next one.  Three consecutive
    spawn attempts that find no script are retried after 2000, 3000 and
    4500 ms.  No restart is ever scheduled with a delay above 60000 ms. *)
Theorem backoff_next_delay :
  (∀ d, nextDelay d = Qmin (d * BACKOFF.factor) BACKOFF.max)
  ∧ (∀ reason st,
       currentDelay (scheduleRestartWithBackoff reason st)
       = nextDelay (currentDelay st)
       ∧ scheduledDelays
           (newEffects st (scheduleRestartWithBackoff reason st))
         = [currentDelay st])
  ∧ (∀ envPort path,
       ∃ st, run threeFailedSpawns (init envPort path) = Some st
             ∧ Forall2 Qeq (scheduledDelays (out st)) [2000; 3000; 4500]%Q)
  ∧ (∀ st, reachable st →
           Forall (λ d, (d <= 60000)%Q) (scheduledDelays (out st))).
Proof.
  split; [reflexivity|]. split; [|split].
  - intros reason st.
    destruct (schedule_effects reason st) as (news & Ho & Hd & _ & Hc).
    by rewrite (newEffects_app _ _ _ Ho).
  - intros envPort path. eexists. split; [vm_compute; reflexivity|].
    vm_compute. repeat constructor.
  - intros st Hr. eapply Forall_impl; [apply (schedInv_reachable st Hr)|].
    intros d [_ H]. exact H.
Qed.

Lemma backoff_next_delay_witness :
  ∃ st, run threeCrashes launched = Some st
        ∧ Forall (λ d, (d <= 60000)%Q) (scheduledDelays (out st)).
Proof.
  eexists. split; [vm_compute; reflexivity|].
  apply backoff_next_delay.
  apply (reachable_run threeCrashes launched); [apply reachable_launched|].
  vm_compute; reflexivity.
Defined.

(** ** The three ways through [startBot] *)

Lemma childRunning_announced message st :
  childRunning (announced message st) = childRunning st.
Proof. unfold announced. by destruct (truthy message). Qed.

Lemma startBot_running message scriptExists st :
  childRunning st = true →
  startBot message scriptExists st
  = logger [Txt "Child already running, skipping spawn."] "[ Info ]"
      (announced message st).
Proof.
  intros H. unfold startBot. fold (announced message st).
  by rewrite childRunning_announced, H.
Qed.

Lemma startBot_spawned message st :
  childRunning st = false →
  startBot message true st
  = started (fresh (dom (procs st))) (announced message st).
Proof.
  intros H. unfold startBot. fold (announced message st).
  rewrite childRunning_announced, H. unfold announced.
  by destruct (truthy message).
Qed.

Lemma startBot_not_found message st :
  childRunning st = false →
  startBot message false st
  = scheduleRestartWithBackoff [Txt "Spawn failed - scheduling retry"]
      (set_child None
         (logger [Txt "Target script not found: "; Val (JStr (scriptPath st))]
            "[ Error ]" (announced message st))).
Proof.
  intros H. unfold startBot. fold (announced message st).
  rewrite childRunning_announced, H. unfold announced.
  by destruct (truthy message).
Qed.

(** ** A process that ends right after it was spawned *)

Lemma hasExited_recordExit status p : hasExited (recordExit status p) = true.
Proof. destruct status as [c0|g0], p as [k [c|] [g|] cl]; reflexivity. Qed.

(** The two events Node delivers when process [h], just spawned, ends. *)
Lemma run_exit_close h status st :
  procs st !! h = Some newProc →
  run [EvChildExit h status; EvChildClose h] st
  = Some (onChildClose
            (exitCode (recordExit status newProc))
            (signalCode (recordExit status newProc))
            (set_procs
               (<[h := markClosed (recordExit status newProc)]>
                  (<[h := recordExit status newProc]> (procs st)))
               (onChildExit
                  (exitCode (recordExit status newProc))
                  (signalCode (recordExit status newProc))
                  (set_procs (<[h := recordExit status newProc]> (procs st))
                     st)))).
Proof.
  intros Hh. cbn [run step]. rewrite Hh. cbn [hasExited newProc exitCode signalCode].
  cbn [step onChildExit logger emit procs set_procs].
  rewrite lookup_insert_eq, hasExited_recordExit.
  by destruct status.
Qed.

Lemma out_announced message st :
  ∃ logs, out (announced message st) = out st ++ logs
          ∧ spawned logs = [] ∧ scheduledDelays logs = [].
Proof. unfold announced. destruct (truthy message); solve_out; auto. Qed.

(** C3. When [startBot] makes a spawn attempt and [spawnChild] returns a
    process, the current delay is [BACKOFF.initial] afterwards, whatever it
    was before; and if that child ends at once, with any exit code or
    signal, the restart is scheduled with the initial delay. *)
Theorem spawn_resets_backoff message status st :
  childRunning st = false → restarting st = false →
  ∃ h st',
    child (startBot message true st) = Some h
    ∧ procs (startBot message true st) !! h = Some newProc
    ∧ spawned (newEffects st (startBot message true st)) = [h]
    ∧ currentDelay (startBot message true st) = BACKOFF.initial
    ∧ run [EvChildExit h status; EvChildClose h] (startBot message true st)
      = Some st'
    ∧ scheduledDelays (newEffects (startBot message true st) st')
      = [BACKOFF.initial].
Proof.
  intros Hrun Hrest. rewrite (startBot_spawned _ _ Hrun).
  set (h := fresh (dom (procs st))).
  destruct (out_announced message st) as (logs & Hlogs & Hsp & _).
  assert (Hh : procs (started h (announced message st)) !! h = Some newProc)
    by apply lookup_insert_eq.
  exists h. eexists. split; [reflexivity|]. split; [exact Hh|].
  split; [|split; [reflexivity|]].
  { rewrite (newEffects_app _ _ (logs ++ [Spawn h])).
    - by rewrite spawned_app, Hsp.
    - cbn [started out emit set_countRestart set_currentDelay set_child
           set_procs]. by rewrite Hlogs, app_assoc. }
  split; [apply (run_exit_close h status _ Hh)|].
  unfold onChildClose.
  match goal with
  | |- context [scheduleRestartWithBackoff ?r ?s] =>
      destruct (schedule_effects r s) as (news & Ho & Hd & _ & _);
      replace (restarting s) with false
  end.
  2:{ unfold announced. by destruct (truthy message). }
  cbn [out emit logger onChildExit set_procs] in Ho.
  rewrite <- !app_assoc in Ho. cbn [app] in Ho.
  rewrite (newEffects_app _ _ _ Ho). cbn [scheduledDelays]. exact Hd.
Qed.

(** ** The child processes *)

Lemma schedule_frame reason st :
  child (scheduleRestartWithBackoff reason st) = child st
  ∧ procs (scheduleRestartWithBackoff reason st) = procs st
  ∧ restarting (scheduleRestartWithBackoff reason st) = restarting st
  ∧ countRestart (scheduleRestartWithBackoff reason st) = countRestart st.
Proof.
  unfold scheduleRestartWithBackoff, restartDelay, advanceDelay; simpl.
  by destruct (restartTimer st).
Qed.

Lemma procInv_frame st st' :
  child st' = child st → procs st' = procs st → procInv st → procInv st'.
Proof. unfold procInv. intros -> ->. done. Qed.

Lemma procInv_schedule reason st :
  procInv st → procInv (scheduleRestartWithBackoff reason st).
Proof.
  destruct (schedule_frame reason st) as (? & ? & _). by apply procInv_frame.
Qed.

Lemma procInv_announced message st : procInv st → procInv (announced message st).
Proof. unfold announced. by destruct (truthy message). Qed.

(** A process that [procInv] makes the current child passes the test of
    [startBot]. *)
Lemma procInv_running st h p :
  procInv st → procs st !! h = Some p →
  hasExited p = false → killed p = false → childRunning st = true.
Proof.
  intros Hinv Hp Hex Hk. unfold childRunning.
  rewrite (Hinv h p Hp Hex Hk), Hp, Hk.
  unfold hasExited in Hex. by destruct (exitCode p).
Qed.

Lemma procInv_startBot message scriptExists st :
  procInv st → procInv (startBot message scriptExists st).
Proof.
  intros Hinv. destruct (childRunning st) eqn:Hrun.
  - rewrite (startBot_running _ _ _ Hrun). by apply procInv_announced.
  - assert (Hnone : ∀ h p, procs st !! h = Some p →
                          hasExited p = false → killed p = false → False).
    { intros h p Hp Hex Hk.
      by rewrite (procInv_running st h p Hinv Hp Hex Hk) in Hrun. }
    assert (Hpa : procs (announced message st) = procs st)
      by (unfold announced; by destruct (truthy message)).
    destruct scriptExists.
    + rewrite (startBot_spawned _ _ Hrun). intros h p Hp Hex Hk.
      cbn [started child procs set_countRestart set_currentDelay set_child
           emit set_procs] in *.
      rewrite Hpa in *.
      destruct (decide (h = fresh (dom (procs st)))) as [->|Hne]; [done|].
      rewrite lookup_insert_ne in Hp by done. destruct (Hnone h p Hp Hex Hk).
    + rewrite (startBot_not_found _ _ Hrun). apply procInv_schedule.
      intros h p Hp Hex Hk.
      cbn [child procs set_child logger emit] in *. rewrite Hpa in Hp.
      destruct (Hnone h p Hp Hex Hk).
Qed.

Lemma procInv_shutdown signal st : procInv st → procInv (shutdown signal st).
Proof.
  intros Hinv. unfold shutdown.
  set (st1 := match restartTimer _ with Some t => _ | None => _ end).
  assert (H1 : procInv st1).
  { subst st1. simpl. destruct (restartTimer st); exact Hinv. }
  clearbody st1. destruct (childRunning st1); [|exact H1].
  destruct (child st1) as [h|] eqn:Hc; [|exact H1].
  unfold terminate, kill. destruct (procs st1 !! h) as [p|] eqn:Hp; [|exact H1].
  destruct (hasExited p); [exact H1|].
  intros h' p' Hp' Hex Hk. cbn [child procs emit set_procs] in *.
  destruct (decide (h' = h)) as [->|Hne].
  - rewrite lookup_insert_eq in Hp'. by simplify_eq.
  - rewrite lookup_insert_ne in Hp' by done. eauto.
Qed.

Lemma procInv_close code signal st :
  procInv st → procInv (onChildClose code signal st).
Proof.
  intros H. unfold onChildClose. cbn [restarting logger emit].
  destruct (restarting st); [exact H|]. by apply procInv_schedule.
Qed.

(** Node's bookkeeping for a process whose state only moves towards
    "ended" keeps the invariant. *)
Lemma procInv_update h p p' st :
  procInv st → procs st !! h = Some p →
  (hasExited p' = false → hasExited p = false) →
  (killed p' = false → killed p = false) →
  procInv (set_procs (<[h := p']> (procs st)) st).
Proof.
  intros Hinv Hp Hex Hk h0 p0 Hp0 Hex0 Hk0. cbn [child procs set_procs] in *.
  destruct (decide (h0 = h)) as [->|Hne].
  - rewrite lookup_insert_eq in Hp0. simplify_eq. eauto.
  - rewrite lookup_insert_ne in Hp0 by done. eauto.
Qed.

Lemma procInv_step ev st st' :
  procInv st → step ev st = Some st' → procInv st'.
Proof.
  intros H Hstep. destruct ev; simpl in Hstep.
  - simplify_eq. by apply procInv_startBot.
  - destruct (timers st !! t); simplify_eq.
    unfold restartTimerCallback, deferredStart. apply procInv_startBot. exact H.
  - repeat case_match; simplify_eq. exact H.
  - destruct (procs st !! h) as [p|] eqn:Hp; [|done].
    destruct (hasExited p) eqn:Hex; simplify_eq.
    apply (procInv_frame
             (set_procs (<[h := recordExit (inl errno) p]> (procs st)) st));
      [done|done|].
    apply (procInv_update h p _ st H Hp); [|done].
    intros Hf. by rewrite hasExited_recordExit in Hf.
  - destruct (procs st !! h) as [p|] eqn:Hp; [|done].
    destruct (hasExited p) eqn:Hex; simplify_eq.
    apply (procInv_frame
             (set_procs (<[h := recordExit status p]> (procs st)) st));
      [done|done|].
    apply (procInv_update h p _ st H Hp).
    + intros Hf. by rewrite hasExited_recordExit in Hf.
    + by destruct status.
  - destruct (procs st !! h) as [p|] eqn:Hp; [|done].
    destruct (hasExited p && negb (closed p)); simplify_eq.
    apply procInv_close. by apply (procInv_update h p _ st H Hp).
  - simplify_eq. by apply procInv_shutdown.
  - simplify_eq. exact H.
  - simplify_eq. unfold onServerError. destruct (String.eqb _ _); exact H.
Qed.

Lemma procInv_reachable st : reachable st → procInv st.
Proof.
  apply reachable_invariant; [|apply procInv_step].
  intros envPort path h p Hp. cbn [init procs] in Hp.
  by rewrite lookup_empty in Hp.
Qed.

(** C8, as stated, fails: when [startBot] is called after the child was
    sent a signal and before it has ended, a second process is spawned and
    two processes are alive. *)
Lemma two_children_alive :
  ∃ st, reachable st
        ∧ run startAfterTerminate launched = Some st
        ∧ liveHandles st = [2; 1]%positive
        ∧ ¬ (length (liveHandles st) ≤ 1)%nat.
Proof.
  eexists. split; [|split; [vm_compute; reflexivity|]].
  - apply (reachable_run startAfterTerminate launched);
      [apply reachable_launched|vm_compute; reflexivity].
  - split; [vm_compute; reflexivity|]. vm_compute. lia.
Qed.

Lemma length_le_1_of_all_eq {A} (l : list A) (a : A) :
  NoDup l → (∀ x, x ∈ l → x = a) → (length l ≤ 1)%nat.
Proof.
  intros Hnd Hall. destruct l as [|x [|y l]]; simpl; [lia|lia|].
  assert (x = a) by (apply Hall; set_solver).
  assert (y = a) by (apply Hall; set_solver).
  subst. apply NoDup_cons in Hnd as [Hnot _]. set_solver.
Qed.

(** C8, amended.  In every reachable state, whatever the order of calls of
    [startBot], events of the children and shutdown requests, at most one
    process has neither ended nor been sent a signal by the launcher, and
    it is the one held in [child]. *)
Theorem one_active_child st :
  reachable st →
  (length (activeHandles st) ≤ 1)%nat
  ∧ ∀ h, h ∈ activeHandles st → child st = Some h.
Proof.
  intros Hr. pose proof (procInv_reachable st Hr) as Hinv.
  assert (Hall : ∀ h, h ∈ activeHandles st → child st = Some h).
  { intros h Hh. unfold activeHandles in Hh.
    apply list_elem_of_fmap in Hh as ([h' p] & -> & Hin).
    apply elem_of_map_to_list, map_lookup_filter_Some in Hin as [Hp [Hex Hk]].
    simpl in *. eauto. }
  split; [|exact Hall].
  destruct (child st) as [c|] eqn:Hc.
  - apply (length_le_1_of_all_eq _ c).
    + apply NoDup_fst_map_to_list.
    + intros h Hh. specialize (Hall h Hh). by simplify_eq.
  - destruct (activeHandles st) as [|h l] eqn:Hl; simpl; [lia|].
    assert (Hh : h ∈ h :: l) by set_solver.
    discriminate (Hall h Hh).
Qed.

Lemma one_active_child_witness :
  ∃ st, run startAfterTerminate launched = Some st
        ∧ (length (activeHandles st) ≤ 1)%nat
        ∧ ∀ h, h ∈ activeHandles st → child st = Some h.
Proof.
  eexists. split; [vm_compute; reflexivity|].
  apply one_active_child.
  apply (reachable_run startAfterTerminate launched);
    [apply reachable_launched|vm_compute; reflexivity].
Defined.

(** ** Calling [startBot] while the child runs *)

(** When the test of [startBot] holds, [startBot] only logs: the message
    it was given, if any, and the informational line. *)
Lemma startBot_running_noop message scriptExists st :
  childRunning st = true →
  ∃ logs,
    startBot message scriptExists st
    = setOut (out st ++ logs
              ++ [Log "[ Info ]"
                    [Txt "Child already running, skipping spawn."]]) st
    ∧ logs = (if truthy message
              then [Log "[ Starting ]" (ofMessage message)] else [])
    ∧ spawned (newEffects st (startBot message scriptExists st)) = []
    ∧ scheduledDelays (newEffects st (startBot message scriptExists st)) = []
    ∧ child (startBot message scriptExists st) = child st
    ∧ procs (startBot message scriptExists st) = procs st
    ∧ currentDelay (startBot message scriptExists st) = currentDelay st
    ∧ countRestart (startBot message scriptExists st) = countRestart st.
Proof.
  intros Hrun. rewrite (startBot_running _ _ _ Hrun). unfold announced.
  eexists. split; [|split; [reflexivity|]].
  - destruct (truthy message); unfold logger, emit, setOut; cbn;
      rewrite <- ?app_assoc; reflexivity.
  - unfold newEffects.
    destruct (truthy message); cbn [out logger emit];
      rewrite <- ?app_assoc, drop_app_length; by cbn.
Qed.

(** C7, as stated, fails: after a shutdown request the child is still
    alive, but it was sent a signal; [startBot] then spawns a second
    process and makes it the child. *)
Lemma start_with_signalled_child_spawns :
  ∃ st, run [EvStart None true; EvShutdown "SIGTERM"] launched = Some st
        ∧ child st = Some 1%positive
        ∧ liveHandles st = [1%positive]
        ∧ child (startBot None true st) = Some 2%positive
        ∧ spawned (newEffects st (startBot None true st)) = [2%positive]
        ∧ liveHandles (startBot None true st) = [2; 1]%positive.
Proof.
  eexists. split; [vm_compute; reflexivity|].
  repeat split; vm_compute; reflexivity.
Qed.

(** C7, amended.  In every state in which the child passes the test of
    [startBot] (a process is held in [child], it was not sent a signal by
    the launcher and its exit code is null), and so in every reachable
    state in which a child process is alive and was not sent a signal,
    [startBot] only logs: the message it was given, if any, and the
    informational line.  No process is spawned, no restart is scheduled,
    and the child, the current delay, the restart counter and every other
    variable are unchanged. *)
Theorem start_when_running_is_noop message scriptExists st :
  childRunning st = true ∨ (reachable st ∧ activeHandles st ≠ []) →
  childRunning st = true
  ∧ ∃ logs,
      startBot message scriptExists st
      = setOut (out st ++ logs
                ++ [Log "[ Info ]"
                      [Txt "Child already running, skipping spawn."]]) st
      ∧ logs = (if truthy message
                then [Log "[ Starting ]" (ofMessage message)] else [])
      ∧ spawned (newEffects st (startBot message scriptExists st)) = []
      ∧ scheduledDelays (newEffects st (startBot message scriptExists st))
        = []
      ∧ child (startBot message scriptExists st) = child st
      ∧ procs (startBot message scriptExists st) = procs st
      ∧ currentDelay (startBot message scriptExists st) = currentDelay st
      ∧ countRestart (startBot message scriptExists st) = countRestart st.
Proof.
  intros H.
  assert (Hrun : childRunning st = true).
  { destruct H as [H|[Hr Hact]]; [exact H|].
    destruct (activeHandles st) as [|h l] eqn:Hl; [done|].
    assert (Hh : h ∈ activeHandles st) by (rewrite Hl; set_solver).
    unfold activeHandles in Hh.
    apply list_elem_of_fmap in Hh as ([h' p] & -> & Hin).
    apply elem_of_map_to_list, map_lookup_filter_Some in Hin as [Hp [Hex Hk]].
    simpl in *.
    exact (procInv_running st h' p (procInv_reachable st Hr) Hp Hex Hk). }
  split; [exact Hrun|]. by apply startBot_running_noop.
Qed.

Lemma start_when_running_is_noop_witness :
  ∃ st, run [EvStart None true] launched = Some st
        ∧ activeHandles st = [1%positive]
        ∧ childRunning st = true
        ∧ child (startBot (Some "again") true st) = child st
        ∧ spawned (newEffects st (startBot (Some "again") true st)) = [].
Proof.
  eexists. split; [vm_compute; reflexivity|].
  split; [vm_compute; reflexivity|].
  match goal with
  | |- childRunning ?a = true ∧ _ =>
      destruct (start_when_running_is_noop (Some "again") true a)
        as (Hrun & logs & _ & _ & Hs & _ & Hc & _);
        [|split; [exact Hrun|split; [exact Hc|exact Hs]]]
  end.
  right. split; [|by vm_compute].
  apply (reachable_run [EvStart None true] launched);
    [apply reachable_launched|vm_compute; reflexivity].
Defined.

(** ** The restart counter *)

Lemma countRestart_startBot message scriptExists st :
  countRestart (startBot message scriptExists st)
  = if negb (childRunning st) && scriptExists then 0%Z else countRestart st.
Proof.
  assert (Ha : countRestart (announced message st) = countRestart st)
    by (unfold announced; by destruct (truthy message)).
  destruct (childRunning st) eqn:Hrun; simpl.
  - by rewrite (startBot_running _ _ _ Hrun).
  - destruct scriptExists.
    + by rewrite (startBot_spawned _ _ Hrun).
    + rewrite (startBot_not_found _ _ Hrun).
      by destruct (schedule_frame [Txt "Spawn failed - scheduling retry"]
                     (set_child None
                        (logger [Txt "Target script not found: ";
                                 Val (JStr (scriptPath st))] "[ Error ]"
                           (announced message st)))) as (_ & _ & _ & ->).
Qed.

Lemma countRestart_shutdown signal st :
  countRestart (shutdown signal st) = countRestart st.
Proof.
  unfold shutdown, terminate, kill.
  destruct (restartTimer st); simpl; repeat (case_match; simpl); done.
Qed.

Lemma countRestart_close code signal st :
  countRestart (onChildClose code signal st) = countRestart st.
Proof.
  unfold onChildClose. cbn [restarting logger emit].
  destruct (restarting st); [done|].
  match goal with
  | |- context [scheduleRestartWithBackoff ?r ?s] =>
      by destruct (schedule_frame r s) as (_ & _ & _ & ->)
  end.
Qed.

Lemma countRestart_step ev st st' :
  step ev st = Some st' → countRestart st' = countAfter ev st.
Proof.
  intros Hstep. unfold countAfter. destruct ev; simpl in Hstep.
  - simplify_eq. rewrite countRestart_startBot. cbn [spawnsChild isTimer].
    by destruct (negb _ && _).
  - destruct (timers st !! t); simplify_eq.
    unfold restartTimerCallback, deferredStart. rewrite countRestart_startBot.
    cbn [spawnsChild isTimer].
    change (childRunning (set_countRestart _ _)) with (childRunning st).
    by destruct (negb _ && _).
  - repeat case_match; by simplify_eq.
  - repeat case_match; by simplify_eq.
  - repeat case_match; by simplify_eq.
  - repeat case_match; simplify_eq. by rewrite countRestart_close.
  - simplify_eq. apply countRestart_shutdown.
  - by simplify_eq.
  - simplify_eq. unfold onServerError. by destruct (String.eqb _ _).
Qed.

Lemma countRestart_nonneg st : reachable st → (0 ≤ countRestart st)%Z.
Proof.
  revert st. apply (reachable_invariant (λ st, (0 ≤ countRestart st)%Z)).
  - done.
  - intros ev st0 st' H0 Hstep. rewrite (countRestart_step _ _ _ Hstep).
    unfold countAfter. repeat case_match; lia.
Qed.

(** C6, as stated, fails: the counter is 1 after a failed retry and 0 after
    the next retry, whose spawn returns a process. *)
Lemma restart_counter_is_reset :
  ∃ st st', run [EvStart None false; EvTimer 1 false] launched = Some st
            ∧ step (EvTimer 1 true) st = Some st'
            ∧ countRestart st = 1%Z ∧ countRestart st' = 0%Z
            ∧ ¬ (countRestart st ≤ countRestart st')%Z.
Proof.
  eexists. eexists. split; [vm_compute; reflexivity|].
  split; [vm_compute; reflexivity|].
  split; [vm_compute; reflexivity|].
  split; [vm_compute; reflexivity|]. vm_compute. intros H. by apply H.
Qed.

(** C6, amended.  The restart counter is never negative and is changed by
    two operations only: the callback of the restart timer adds one to it,
    and [startBot] sets it to 0 each time [spawnChild] returns a process.
    Every other handler (a call of [startBot] on a running child, a spawn
    that finds no script, the exit and close of a child, the scheduling of
    a restart, a shutdown request) leaves it as it is. *)
Theorem restart_counter_steps ev st st' :
  reachable st → step ev st = Some st' →
  countRestart st' = countAfter ev st ∧ (0 ≤ countRestart st')%Z.
Proof.
  intros Hr Hstep. split; [by apply countRestart_step|].
  apply countRestart_nonneg.
  apply (reachable_run [ev] st); [done|]. simpl. by rewrite Hstep.
Qed.

Lemma restart_counter_steps_witness :
  ∃ st st', run [EvStart None false; EvTimer 1 false] launched = Some st
            ∧ step (EvTimer 1 true) st = Some st'
            ∧ countRestart st' = countAfter (EvTimer 1 true) st
            ∧ (0 ≤ countRestart st')%Z.
Proof.
  eexists. eexists. split; [vm_compute; reflexivity|].
  split; [vm_compute; reflexivity|].
  apply restart_counter_steps; [|vm_compute; reflexivity].
  apply (reachable_run [EvStart None false; EvTimer 1 false] launched);
    [apply reachable_launched|vm_compute; reflexivity].
Defined.

(** ** One pending restart *)

Lemma timerInv_size st : timerInv st → (size (timers st) ≤ 1)%nat.
Proof.
  unfold timerInv. destruct (restartTimer st).
  - intros [d ->]. by rewrite map_size_singleton.
  - intros ->. rewrite map_size_empty. lia.
Qed.

Lemma schedule_calls reason st :
  ∃ line t,
    out (scheduleRestartWithBackoff reason st)
    = out st
      ++ Log "[ Restart ]" line
         :: match restartTimer st with
            | Some t0 => [ClearTimeout t0]
            | None => []
            end
         ++ [SetTimeout t (currentDelay st)]
    ∧ restartTimer (scheduleRestartWithBackoff reason st) = Some t.
Proof.
  unfold scheduleRestartWithBackoff, restartDelay, advanceDelay; simpl.
  destruct (restartTimer st); simpl; rewrite <- ?app_assoc; simpl;
    eexists; eexists; (split; reflexivity).
Qed.

(** C10. In every reachable state at most one restart timer is armed, and
    it is the one held in [restartTimer].  [scheduleRestartWithBackoff]
    logs, then cancels the timer held in [restartTimer] if there is one,
    then arms the new timer: after the call exactly one timer is armed,
    the new one. *)
Theorem one_restart_timer reason st :
  reachable st →
  (size (timers st) ≤ 1)%nat
  ∧ (∀ t, is_Some (timers st !! t) → restartTimer st = Some t)
  ∧ ∃ line t,
      newEffects st (scheduleRestartWithBackoff reason st)
      = Log "[ Restart ]" line
        :: match restartTimer st with
           | Some t0 => [ClearTimeout t0]
           | None => []
           end
        ++ [SetTimeout t (currentDelay st)]
      ∧ restartTimer (scheduleRestartWithBackoff reason st) = Some t
      ∧ timers (scheduleRestartWithBackoff reason st)
        = {[ t := currentDelay st ]}.
Proof.
  intros Hr. pose proof (timerInv_reachable st Hr) as Hinv.
  split; [by apply timerInv_size|].
  split; [intros t Ht; by destruct (timerInv_fired t st Hinv Ht)|].
  destruct (schedule_timers reason st Hinv) as (t & Ht & Hts).
  destruct (schedule_calls reason st) as (line & t' & Hout & Ht').
  rewrite Ht in Ht'. simplify_eq.
  exists line, t'. split; [|by split]. by apply newEffects_app.
Qed.

Lemma one_restart_timer_witness :
  ∃ st, run [EvStart None true; EvChildExit 1 (inl 1%Z); EvChildClose 1]
          launched = Some st
        ∧ (size (timers st) ≤ 1)%nat
        ∧ timers (scheduleRestartWithBackoff [Txt "again"] st)
          = {[ 1%positive := currentDelay st ]}.
Proof.
  eexists. split; [vm_compute; reflexivity|].
  edestruct (one_restart_timer [Txt "again"]) as (Hs & _ & line & t & _ & Ht & Hts).
  2:{ split; [exact Hs|]. rewrite Hts. f_equal.
      vm_compute in Ht. by simplify_eq. }
  apply (reachable_run
           [EvStart None true; EvChildExit 1 (inl 1%Z); EvChildClose 1]
           launched); [apply reachable_launched|vm_compute; reflexivity].
Defined.

(** ** Shutdown *)









(** ** The HTTP server *)

(** No handler reads the output trace: run from a state with another
    trace, a handler makes the same calls and leaves the same variables. *)

Lemma State_eq st1 st2 :
  port st1 = port st2 → scriptPath st1 = scriptPath st2 →
  child st1 = child st2 → restarting st1 = restarting st2 →
  currentDelay st1 = currentDelay st2 → restartTimer st1 = restartTimer st2 →
  countRestart st1 = countRestart st2 → procs st1 = procs st2 →
  timers st1 = timers st2 → out st1 = out st2 → st1 = st2.
Proof. destruct st1, st2; simpl; intros; by subst. Qed.

Ltac solve_setOut :=
  simpl; rewrite <- ?app_assoc; simpl;
  first [ eexists; split; [reflexivity|]
        | exists []; split; [symmetry; apply app_nil_r|] ];
  intros ?; apply State_eq; simpl; rewrite <- ?app_assoc, ?app_nil_r;
  reflexivity.

Lemma schedule_setOut reason st :
  ∃ news, out (scheduleRestartWithBackoff reason st) = out st ++ news
          ∧ ∀ o, scheduleRestartWithBackoff reason (setOut o st)
                 = setOut (o ++ news) (scheduleRestartWithBackoff reason st).
Proof.
  unfold scheduleRestartWithBackoff, restartDelay, advanceDelay; simpl.
  destruct (restartTimer st); solve_setOut.
Qed.

Lemma announced_setOut message st :
  ∃ news, out (announced message st) = out st ++ news
          ∧ ∀ o, announced message (setOut o st)
                 = setOut (o ++ news) (announced message st).
Proof. unfold announced. destruct (truthy message); solve_setOut. Qed.

Lemma startBot_setOut message scriptExists st :
  ∃ news, out (startBot message scriptExists st) = out st ++ news
          ∧ ∀ o, startBot message scriptExists (setOut o st)
                 = setOut (o ++ news) (startBot message scriptExists st).
Proof.
  destruct (announced_setOut message st) as (n1 & Ho1 & Hset1).
  destruct (childRunning st) eqn:Hrun.
  - rewrite (startBot_running _ _ _ Hrun).
    exists (n1 ++ [Log "[ Info ]" [Txt "Child already running, skipping spawn."]]).
    split; [cbn [out logger emit]; by rewrite Ho1, app_assoc|].
    intros o. rewrite (startBot_running _ _ (setOut o st) Hrun), Hset1.
    apply State_eq; simpl; by rewrite <- ?app_assoc.
  - destruct scriptExists.
    + rewrite (startBot_spawned _ _ Hrun).
      exists (n1 ++ [Spawn (fresh (dom (procs st)))]).
      split; [cbn [out started emit set_countRestart set_currentDelay
                   set_child set_procs]; by rewrite Ho1, app_assoc|].
      intros o. rewrite (startBot_spawned _ (setOut o st) Hrun), Hset1.
      apply State_eq; simpl; by rewrite <- ?app_assoc.
    + rewrite (startBot_not_found _ _ Hrun).
      set (line := Log "[ Error ]"
                     [Txt "Target script not found: ";
                      Val (JStr (scriptPath st))]).
      set (s1 := set_child None (emit line (announced message st))).
      destruct (schedule_setOut [Txt "Spawn failed - scheduling retry"] s1)
        as (n2 & Ho2 & Hset2).
      exists (n1 ++ line :: n2). split.
      { unfold logger. fold line. fold s1. rewrite Ho2. subst s1.
        cbn [out set_child emit]. by rewrite Ho1, <- !app_assoc. }
      intros o. rewrite (startBot_not_found _ (setOut o st) Hrun), Hset1.
      transitivity (scheduleRestartWithBackoff
                      [Txt "Spawn failed - scheduling retry"]
                      (setOut ((o ++ n1) ++ [line]) s1)).
      { f_equal. }
      rewrite Hset2. unfold logger. fold line. fold s1.
      f_equal. by rewrite <- !app_assoc.
Qed.

Lemma shutdown_setOut signal st :
  ∃ news, out (shutdown signal st) = out st ++ news
          ∧ ∀ o, shutdown signal (setOut o st)
                 = setOut (o ++ news) (shutdown signal st).
Proof.
  unfold shutdown, terminate, kill, childRunning; simpl.
  destruct (restartTimer st); simpl;
    destruct (child st) as [h|]; simpl; try solve_setOut;
    destruct (procs st !! h) as [p|]; simpl; try solve_setOut;
    destruct (negb (killed p) && _); simpl; try solve_setOut;
    destruct (hasExited p); solve_setOut.
Qed.

Lemma close_setOut code signal st :
  ∃ news, out (onChildClose code signal st) = out st ++ news
          ∧ ∀ o, onChildClose code signal (setOut o st)
                 = setOut (o ++ news) (onChildClose code signal st).
Proof.
  unfold onChildClose, logger.
  set (line := Log "[ Child ]"
                 [Txt "Child closed. code="; Val (ofCode code);
                  Txt " signal="; Val (ofSignal signal)]).
  change (restarting (emit line st)) with (restarting st).
  destruct (restarting st) eqn:Hr.
  - eexists [line; _]. split.
    + cbn [out emit]. by rewrite <- app_assoc.
    + intros o. change (restarting (emit line (setOut o st)))
        with (restarting st). rewrite Hr.
      apply State_eq; simpl; by rewrite <- ?app_assoc.
  - destruct (schedule_setOut
                [Txt "Child exited (code="; Val (ofCode code); Txt ")"]
                (emit line st)) as (n2 & Ho2 & Hset2).
    exists (line :: n2). split.
    + rewrite Ho2. cbn [out emit]. by rewrite <- app_assoc.
    + intros o. change (restarting (emit line (setOut o st)))
        with (restarting st). rewrite Hr.
      transitivity (scheduleRestartWithBackoff
                      [Txt "Child exited (code="; Val (ofCode code); Txt ")"]
                      (setOut (o ++ [line]) (emit line st))).
      { f_equal. }
      rewrite Hset2. f_equal. by rewrite <- app_assoc.
Qed.

Ltac solve_step_setOut :=
  simpl; rewrite <- ?app_assoc; simpl; eexists; split; [reflexivity|];
  apply State_eq; simpl; rewrite <- ?app_assoc; reflexivity.

Lemma step_setOut ev st o :
  match step ev st, step ev (setOut o st) with
  | Some a, Some b => ∃ news, out a = out st ++ news ∧ b = setOut (o ++ news) a
  | None, None => True
  | _, _ => False
  end.
Proof.
  destruct ev; cbn [step timers procs setOut].
  - destruct (startBot_setOut message scriptExists st) as (news & Ho & Hset).
    exists news. by rewrite Hset.
  - destruct (timers st !! t); [|done].
    unfold restartTimerCallback, deferredStart.
    match goal with
    | |- context [startBot None ?e (set_countRestart ?n ?s)] =>
        destruct (startBot_setOut None e (set_countRestart n s))
          as (news & Ho & Hset)
    end.
    exists news. split; [exact Ho|]. rewrite <- Hset. f_equal.
  - destruct (procs st !! h) as [p|]; [|done].
    destruct (hasExited p); [done|]. unfold onChildSpawn. solve_step_setOut.
  - destruct (procs st !! h) as [p|]; [|done].
    destruct (hasExited p); [done|]. unfold onChildError. solve_step_setOut.
  - destruct (procs st !! h) as [p|]; [|done].
    destruct (hasExited p); [done|]. unfold onChildExit. solve_step_setOut.
  - destruct (procs st !! h) as [p|]; [|done].
    destruct (hasExited p && negb (closed p)); [|done].
    match goal with
    | |- context [onChildClose ?c ?g (set_procs ?ps st)] =>
        destruct (close_setOut c g (set_procs ps st)) as (news & Ho & Hset)
    end.
    exists news. split; [exact Ho|]. rewrite <- Hset. f_equal.
  - destruct (shutdown_setOut signal st) as (news & Ho & Hset).
    exists news. by rewrite Hset.
  - unfold onListening. solve_step_setOut.
  - unfold onServerError. cbn [port]. destruct (String.eqb _ _); solve_step_setOut.
Qed.

Lemma run_setOut evs st o :
  match run evs st, run evs (setOut o st) with
  | Some a, Some b => ∃ news, out a = out st ++ news ∧ b = setOut (o ++ news) a
  | None, None => True
  | _, _ => False
  end.
Proof.
  revert st o. induction evs as [|ev evs IH]; intros st o; cbn [run].
  - exists []. by rewrite !app_nil_r.
  - pose proof (step_setOut ev st o) as Hstep.
    destruct (step ev st) as [a|], (step ev (setOut o st)) as [b|];
      try done.
    destruct Hstep as (n1 & Ho1 & ->).
    pose proof (IH a (o ++ n1)) as Hrun.
    destruct (run evs a) as [a'|], (run evs (setOut (o ++ n1) a)) as [b'|];
      try done.
    destruct Hrun as (n2 & Ho2 & ->).
    exists (n1 ++ n2). by rewrite Ho2, Ho1, !app_assoc.
Qed.

(** C9. An error of the HTTP server is logged, with one line tagged
    [[ Error ]], and that is all its handler does: it makes no other call
    and changes no variable of the launcher.  The supervision goes on as if
    the error had not happened: every later sequence of events is accepted
    after the error exactly when it is accepted without it, the launcher
    makes the same calls (spawns, timers, signals, log lines), and ends in
    the same state but for the one line in the trace. *)
Theorem listen_error_is_only_logged code message st :
  ∃ line,
    step (EvServerError code message) st
    = Some (setOut (out st ++ [Log "[ Error ]" line]) st)
    ∧ ∀ evs,
        match run evs st,
              run (EvServerError code message :: evs) st with
        | Some a, Some b =>
            ∃ news, out a = out st ++ news
                    ∧ b = setOut (out st ++ Log "[ Error ]" line :: news) a
        | None, None => True
        | _, _ => False
        end.
Proof.
  assert (Hline : ∃ line, onServerError code message st
                          = setOut (out st ++ [Log "[ Error ]" line]) st).
  { unfold onServerError. destruct (String.eqb _ _); eexists; reflexivity. }
  destruct Hline as (line & Hline). exists line.
  split; [cbn [step]; by rewrite Hline|].
  intros evs. cbn [run step]. rewrite Hline.
  pose proof (run_setOut evs st (out st ++ [Log "[ Error ]" line])) as H.
  destruct (run evs st) as [a|], (run evs (setOut _ st)) as [b|]; try done.
  destruct H as (news & Ho & ->). exists news. split; [done|].
  by rewrite <- app_assoc.
Qed.

(** ** A spawn that fails *)

(** What [scheduleRestartWithBackoff] leaves in the timer variables depends
    on these variables only. *)
Lemma schedule_same r1 r2 s1 s2 :
  timers s1 = timers s2 → restartTimer s1 = restartTimer s2 →
  currentDelay s1 = currentDelay s2 →
  timers (scheduleRestartWithBackoff r1 s1)
  = timers (scheduleRestartWithBackoff r2 s2)
  ∧ restartTimer (scheduleRestartWithBackoff r1 s1)
    = restartTimer (scheduleRestartWithBackoff r2 s2)
  ∧ currentDelay (scheduleRestartWithBackoff r1 s1)
    = currentDelay (scheduleRestartWithBackoff r2 s2).
Proof.
  intros H1 H2 H3.
  unfold scheduleRestartWithBackoff, restartDelay, advanceDelay; simpl.
  rewrite H2.
  destruct (restartTimer s2); simpl; by rewrite H1, H3.
Qed.

(** A call of [startBot] that finds no child running makes a spawn attempt:
    it spawns a process, or finds no script and schedules a restart. *)
Lemma startBot_attempt message (scriptExists : bool) st :
  childRunning st = false →
  if scriptExists return Prop
  then ∃ h, spawned (newEffects st (startBot message true st)) = [h]
  else spawned (newEffects st (startBot message false st)) = []
       ∧ scheduledDelays (newEffects st (startBot message false st))
         = [currentDelay st].
Proof.
  intros Hrun. destruct (out_announced message st) as (logs & Hlogs & Hsp & Hsd).
  destruct scriptExists.
  - rewrite (startBot_spawned _ _ Hrun). eexists.
    rewrite (newEffects_app _ _ (logs ++ [Spawn (fresh (dom (procs st)))])).
    + by rewrite spawned_app, Hsp.
    + cbn [started out emit set_countRestart set_currentDelay set_child
           set_procs]. by rewrite Hlogs, app_assoc.
  - rewrite (startBot_not_found _ _ Hrun).
    match goal with
    | |- context [scheduleRestartWithBackoff ?r ?s] =>
        destruct (schedule_effects r s) as (news & Ho & Hd & Hs & _)
    end.
    cbn [out set_child logger emit currentDelay] in Ho, Hd.
    rewrite Hlogs, <- !app_assoc in Ho.
    rewrite (newEffects_app _ _ _ Ho), spawned_app, scheduledDelays_app, Hsp,
      Hsd. cbn. split; [done|]. rewrite Hd.
    unfold announced. by destruct (truthy message).
Qed.

(** When the pending timer fires and no child is running, the launcher
    tries again. *)
Lemma retry_attempt t d scriptExists st :
  timers st = {[ t := d ]} → childRunning st = false →
  ∃ st', step (EvTimer t scriptExists) st = Some st'
         ∧ if scriptExists return Prop
           then ∃ h, spawned (newEffects st st') = [h]
           else scheduledDelays (newEffects st st') = [currentDelay st].
Proof.
  intros Hts Hrun. cbn [step]. rewrite Hts, lookup_singleton_eq.
  eexists. split; [reflexivity|]. unfold restartTimerCallback, deferredStart.
  match goal with
  | |- context [startBot None _ ?s] =>
      pose proof (startBot_attempt None scriptExists s Hrun) as H
  end.
  destruct scriptExists; [exact H|exact (proj2 H)].
Qed.

(** The two events Node delivers when process [h], just created, could not
    be started: ['error'], then ['close']. *)
Lemma run_error_close h errno message st :
  procs st !! h = Some newProc →
  run [EvChildError h errno message; EvChildClose h] st
  = Some (onChildClose (Some errno) None
            (set_procs
               (<[h := markClosed (recordExit (inl errno) newProc)]>
                  (<[h := recordExit (inl errno) newProc]> (procs st)))
               (onChildError message
                  (set_procs
                     (<[h := recordExit (inl errno) newProc]> (procs st))
                     st)))).
Proof.
  intros Hh. cbn [run step]. rewrite Hh.
  cbn [hasExited newProc exitCode signalCode].
  cbn [step onChildError logger emit procs set_procs].
  by rewrite lookup_insert_eq.
Qed.

Lemma timerInv_announced message st :
  timerInv st → timerInv (announced message st).
Proof. unfold announced. by destruct (truthy message). Qed.

Lemma announced_frame message st :
  timers (announced message st) = timers st
  ∧ restartTimer (announced message st) = restartTimer st
  ∧ currentDelay (announced message st) = currentDelay st
  ∧ countRestart (announced message st) = countRestart st
  ∧ restarting (announced message st) = restarting st.
Proof. unfold announced. by destruct (truthy message). Qed.

(** The spawn failures that the launcher handles, on the paths where the
    [spawn] call returns.  A missing script is reported by [spawnChild]
    returning [null]: [startBot] schedules a restart, deferred by a
    positive delay, and leaves the same pending restart, delay and counter
    as the close of a child would.  A process that could not be started is
    reported by its ['error'] event, which is only logged; the restart is
    scheduled by the ['close'] handler, as for any child that ended. *)
Lemma spawn_failure_schedules_retry message errno errMessage st :
  reachable st → childRunning st = false → restarting st = false →
  (∃ t, child (startBot message false st) = None
        ∧ spawned (newEffects st (startBot message false st)) = []
        ∧ scheduledDelays (newEffects st (startBot message false st))
          = [currentDelay st]
        ∧ (0 < currentDelay st)%Q
        ∧ restartTimer (startBot message false st) = Some t
        ∧ timers (startBot message false st) = {[ t := currentDelay st ]}
        ∧ (∀ code signal,
             sameSchedule (onChildClose code signal st)
               (startBot message false st))
        ∧ retriesAfter t (startBot message false st))
  ∧ (∃ h st1 t,
        child (startBot message true st) = Some h
        ∧ run [EvChildError h errno errMessage; EvChildClose h]
            (startBot message true st) = Some st1
        ∧ spawned (newEffects (startBot message true st) st1) = []
        ∧ scheduledDelays (newEffects (startBot message true st) st1)
          = [BACKOFF.initial]
        ∧ restartTimer st1 = Some t
        ∧ timers st1 = {[ t := BACKOFF.initial ]}
        ∧ retriesAfter t st1).
Proof.
  intros Hr Hrun Hrest.
  pose proof (timerInv_reachable st Hr) as Hti.
  pose proof (delayInv_reachable st Hr) as [Hlow _].
  destruct (announced_frame message st) as (Hat & Hart & Had & Hac & Har).
  split.
  - pose proof (startBot_attempt message false st Hrun) as [Hsp Hsd].
    rewrite (startBot_not_found _ _ Hrun) in *.
    set (s := set_child None _) in *.
    assert (Hs : timerInv s) by (by apply timerInv_announced).
    destruct (schedule_timers [Txt "Spawn failed - scheduling retry"] s Hs)
      as (t & Ht & Hts).
    destruct (schedule_frame [Txt "Spawn failed - scheduling retry"] s)
      as (Hc & Hp & _ & Hn).
    change (currentDelay s) with (currentDelay (announced message st)) in Hts.
    rewrite Had in Hts.
    exists t. split; [by rewrite Hc|]. split; [done|]. split; [done|].
    split; [unfold BACKOFF.initial in Hlow; lra|].
    split; [done|]. split; [done|]. split.
    + intros code signal. unfold onChildClose, sameSchedule, logger.
      match goal with
      | |- context [restarting (emit ?l st)] =>
          change (restarting (emit l st)) with (restarting st)
      end.
      rewrite Hrest.
      match goal with
      | |- context [scheduleRestartWithBackoff ?r (emit ?l st)] =>
          destruct (schedule_same r [Txt "Spawn failed - scheduling retry"]
                      (emit l st) s) as (H1 & H2 & H3);
          [exact (eq_sym Hat)|exact (eq_sym Hart)|exact (eq_sym Had)|];
          destruct (schedule_frame r (emit l st)) as (_ & _ & _ & H4)
      end.
      rewrite H1, H2, H3, H4, Hn. repeat split. exact (eq_sym Hac).
    + intros e. apply (retry_attempt t (currentDelay st)); [done|].
      unfold childRunning. by rewrite Hc.
  - rewrite (startBot_spawned _ _ Hrun).
    set (h := fresh (dom (procs st))).
    set (s0 := started h (announced message st)).
    assert (Hh : procs s0 !! h = Some newProc) by apply lookup_insert_eq.
    pose proof (run_error_close h errno errMessage s0 Hh) as Hrun2.
    unfold onChildClose in Hrun2.
    set (s2 := logger _ "[ Child ]" _) in Hrun2.
    assert (Hr2 : restarting s2 = false) by (by rewrite <- Har in Hrest).
    rewrite Hr2 in Hrun2.
    assert (Hs2 : timerInv s2) by (by apply timerInv_announced).
    set (reason := [Txt "Child exited (code="; _; _]) in Hrun2.
    destruct (schedule_timers reason s2 Hs2) as (t & Ht & Hts).
    destruct (schedule_frame reason s2) as (Hc & Hp & _).
    destruct (schedule_effects reason s2) as (news & Ho & Hd & Hsp & _).
    exists h, (scheduleRestartWithBackoff reason s2), t.
    split; [done|]. split; [exact Hrun2|].
    assert (Hout : out (scheduleRestartWithBackoff reason s2)
                   = out s0 ++ Log "[ Child Error ]"
                                 [Txt "Child process error: ";
                                  Val (JStr errMessage)]
                        :: Log "[ Child ]"
                             [Txt "Child closed. code=";
                              Val (ofCode (Some errno));
                              Txt " signal="; Val (ofSignal None)]
                        :: news).
    { rewrite Ho. subst s2. cbn [out logger emit onChildError set_procs].
      by rewrite <- !app_assoc. }
    rewrite (newEffects_app _ _ _ Hout). cbn [spawned scheduledDelays].
    split; [done|]. split; [exact Hd|]. split; [done|]. split; [exact Hts|].
    intros e. apply (retry_attempt t BACKOFF.initial); [exact Hts|].
    unfold childRunning. rewrite Hc, Hp. subst s2.
    cbn [child procs logger emit set_procs onChildError].
    change (child s0) with (Some h). cbn. by rewrite lookup_insert_eq.
Qed.

Lemma spawn_failure_schedules_retry_witness :
  ∃ t, restartTimer (startBot None false launched) = Some t
       ∧ timers (startBot None false launched) = {[ t := 2000%Q ]}
       ∧ retriesAfter t (startBot None false launched).
Proof.
  destruct (spawn_failure_schedules_retry None (-13) "spawn EACCES" launched)
    as [(t & _ & _ & _ & _ & Ht & Hts & _ & Hretry) _];
    [apply reachable_launched|reflexivity|reflexivity|].
  exists t. split; [exact Ht|]. split; [exact Hts|exact Hretry].
Defined.

Lemma spawn_resets_backoff_witness :
  ∃ st, run threeFailedSpawns launched = Some st
        ∧ ¬ (currentDelay st == BACKOFF.initial)%Q
        ∧ currentDelay (startBot None true st) = BACKOFF.initial.
Proof.
  eexists. split; [vm_compute; reflexivity|]. split; [by vm_compute|].
  match goal with
  | |- currentDelay (startBot None true ?s) = _ =>
      destruct (spawn_resets_backoff None (inr "SIGSEGV") s)
        as (h & st' & _ & _ & _ & Hc & _); [reflexivity|reflexivity|exact Hc]
  end.
Defined.

(** ** A child ended by a signal

    Node leaves [exitCode] at [null] when a process is ended by a signal,
    so such a child still passes the test of [startBot]: the restart is
    scheduled by the ['close'] handler, and skipped when the timer fires. *)
Remark signalled_child_passes_test :
  ∃ st, run [EvStart None true; EvChildExit 1 (inr "SIGKILL");
             EvChildClose 1; EvTimer 1 true] launched = Some st
        ∧ childRunning st = true
        ∧ liveHandles st = []
        ∧ spawned (out st) = [1%positive].
Proof.
  eexists. split; [vm_compute; reflexivity|].
  repeat split; vm_compute; reflexivity.
Qed.

(** ** Which handlers spawn *)

Lemma spawned_startBot message scriptExists st :
  spawned (newEffects st (startBot message scriptExists st))
  = if negb (childRunning st) && scriptExists
    then [fresh (dom (procs st))] else [].
Proof.
  destruct (out_announced message st) as (logs & Hlogs & Hsp & _).
  destruct (childRunning st) eqn:Hrun; simpl.
  - rewrite (startBot_running _ _ _ Hrun).
    rewrite (newEffects_app _ _
               (logs ++ [Log "[ Info ]"
                           [Txt "Child already running, skipping spawn."]])).
    + by rewrite spawned_app, Hsp.
    + cbn [out logger emit]. by rewrite Hlogs, app_assoc.
  - destruct scriptExists.
    + rewrite (startBot_spawned _ _ Hrun).
      rewrite (newEffects_app _ _ (logs ++ [Spawn (fresh (dom (procs st)))])).
      * by rewrite spawned_app, Hsp.
      * cbn [started out emit set_countRestart set_currentDelay set_child
             set_procs]. by rewrite Hlogs, app_assoc.
    + apply (startBot_attempt message false st Hrun).
Qed.

Lemma spawned_close code signal st :
  spawned (newEffects st (onChildClose code signal st)) = [].
Proof.
  unfold onChildClose, logger.
  match goal with
  | |- context [restarting (emit ?l st)] =>
      change (restarting (emit l st)) with (restarting st)
  end.
  destruct (restarting st).
  - unfold newEffects. cbn [out emit].
    by rewrite <- app_assoc, drop_app_length.
  - match goal with
    | |- context [scheduleRestartWithBackoff ?r ?s] =>
        destruct (schedule_effects r s) as (news & Ho & _ & Hs & _)
    end.
    cbn [out emit] in Ho. rewrite <- app_assoc in Ho.
    by rewrite (newEffects_app _ _ _ Ho).
Qed.

Lemma spawned_step ev st st' :
  step ev st = Some st' →
  spawned (newEffects st st')
  = if spawnsChild ev st then [fresh (dom (procs st))] else [].
Proof.
  intros Hstep. destruct ev; simpl in Hstep; cbn [spawnsChild].
  - simplify_eq. apply spawned_startBot.
  - destruct (timers st !! t); simplify_eq.
    unfold restartTimerCallback, deferredStart.
    match goal with
    | |- context [startBot None ?e ?s] =>
        exact (spawned_startBot None e s)
    end.
  - repeat case_match; simplify_eq. unfold newEffects, onChildSpawn.
    cbn [out logger emit]. by rewrite drop_app_length.
  - repeat case_match; simplify_eq. unfold newEffects, onChildError.
    cbn [out logger emit set_procs]. by rewrite drop_app_length.
  - repeat case_match; simplify_eq. unfold newEffects, onChildExit.
    cbn [out logger emit set_procs]. by rewrite drop_app_length.
  - repeat case_match; simplify_eq.
    match goal with
    | |- context [onChildClose ?c ?g ?s] => exact (spawned_close c g s)
    end.
  - simplify_eq.
    destruct (shutdown_effects signal st) as (news & Ho & _ & Hs & _).
    by rewrite (newEffects_app _ _ _ Ho).
  - simplify_eq. unfold newEffects, onListening.
    cbn [out logger emit]. by rewrite drop_app_length.
  - simplify_eq. unfold newEffects, onServerError.
    destruct (String.eqb _ _); cbn [out logger emit];
      by rewrite drop_app_length.
Qed.

(** No handler but [startBot], called directly or by the restart timer,
    spawns a process; [startBot] spawns exactly one, and only when no child
    passes its test and the script exists. *)
Theorem spawn_only_from_startBot ev st st' :
  step ev st = Some st' →
  (length (spawned (newEffects st st')) ≤ 1)%nat
  ∧ (spawned (newEffects st st') ≠ [] ↔ spawnsChild ev st = true)
  ∧ (fromRuntime ev = true → isTimer ev = false →
     spawned (newEffects st st') = []).
Proof.
  intros Hstep. rewrite (spawned_step _ _ _ Hstep).
  split; [destruct (spawnsChild ev st); simpl; lia|].
  split; [by destruct (spawnsChild ev st)|].
  by destruct ev.
Qed.

Lemma spawn_only_from_startBot_witness :
  ∃ st st', run [EvStart None true; EvChildExit 1 (inl 1%Z)] launched
            = Some st
            ∧ step (EvChildClose 1) st = Some st'
            ∧ spawned (newEffects st st') = [].
Proof.
  eexists. eexists. split; [vm_compute; reflexivity|].
  split; [vm_compute; reflexivity|].
  match goal with
  | |- spawned (newEffects ?a ?b) = [] =>
      destruct (spawn_only_from_startBot (EvChildClose 1) a b)
        as (_ & _ & H); [vm_compute; reflexivity|by apply H]
  end.
Defined.

(** ** [startBot] never leaves the launcher idle *)

Lemma childRunning_started h st :
  childRunning (started h st) = true.
Proof.
  unfold childRunning.
  cbn [started child procs set_countRestart set_currentDelay set_child emit
       set_procs].
  by rewrite lookup_insert_eq.
Qed.

Lemma childRunning_startBot message st :
  childRunning (startBot message true st) = true.
Proof.
  destruct (childRunning st) eqn:Hrun.
  - rewrite (startBot_running _ _ _ Hrun).
    change (childRunning (announced message st) = true).
    by rewrite childRunning_announced.
  - rewrite (startBot_spawned _ _ Hrun). apply childRunning_started.
Qed.

Lemma schedule_pending reason st :
  ∃ t, restartTimer (scheduleRestartWithBackoff reason st) = Some t
       ∧ timers (scheduleRestartWithBackoff reason st) !! t
         = Some (currentDelay st).
Proof.
  unfold scheduleRestartWithBackoff, restartDelay, advanceDelay; simpl.
  destruct (restartTimer st); simpl; eexists;
    (split; [reflexivity|apply lookup_insert_eq]).
Qed.

(** When [startBot] returns, a child passes its test, or the spawn found no
    script and a restart timer is pending: the launcher is never left with
    neither.  With the script in place the first is always the case. *)
Theorem startBot_never_idle message scriptExists st :
  (scriptExists = true → childRunning (startBot message scriptExists st) = true)
  ∧ (childRunning (startBot message scriptExists st) = true
     ∨ (scriptExists = false ∧ childRunning st = false
        ∧ child (startBot message scriptExists st) = None
        ∧ ∃ t, restartTimer (startBot message scriptExists st) = Some t
               ∧ is_Some (timers (startBot message scriptExists st) !! t))).
Proof.
  split; [intros ->; apply childRunning_startBot|].
  destruct scriptExists; [left; apply childRunning_startBot|].
  destruct (childRunning st) eqn:Hrun.
  - left. rewrite (startBot_running _ _ _ Hrun).
    change (childRunning (announced message st) = true).
    by rewrite childRunning_announced.
  - right. split; [done|]. split; [done|].
    rewrite (startBot_not_found _ _ Hrun).
    match goal with
    | |- context [scheduleRestartWithBackoff ?r ?s] =>
        destruct (schedule_pending r s) as (t & Ht & Hts);
        destruct (schedule_frame r s) as (Hc & _)
    end.
    split; [by rewrite Hc|]. exists t. by rewrite Ht, Hts.
Qed.

(** A second call of [startBot], right after one that had the script in
    place, only logs: it spawns nothing, arms and cancels no timer, sends
    no signal and changes no variable. *)
Theorem startBot_twice message1 message2 scriptExists2 st :
  ∃ logs,
    startBot message2 scriptExists2 (startBot message1 true st)
    = setOut (out (startBot message1 true st) ++ logs)
        (startBot message1 true st)
    ∧ Forall (λ e, ∃ tag line, e = Log tag line) logs.
Proof.
  set (st1 := startBot message1 true st).
  assert (Hrun : childRunning st1 = true) by apply childRunning_startBot.
  rewrite (startBot_running _ _ _ Hrun). unfold announced.
  destruct (truthy message2).
  - exists [Log "[ Starting ]" (ofMessage message2);
            Log "[ Info ]" [Txt "Child already running, skipping spawn."]].
    split; [|repeat constructor; eauto].
    apply State_eq; try reflexivity.
    cbn [out logger emit setOut]. by rewrite <- app_assoc.
  - exists [Log "[ Info ]" [Txt "Child already running, skipping spawn."]].
    split; [|repeat constructor; eauto].
    by apply State_eq.
Qed.

(** ** A child ended by a signal is never replaced *)

Lemma endedBySignal_running h st : endedBySignal h st → childRunning st = true.
Proof.
  intros (Hc & p & Hp & Hk & He & _). unfold childRunning.
  by rewrite Hc, Hp, Hk, He.
Qed.

Lemma endedBySignal_frame h st st' :
  child st' = child st → procs st' = procs st →
  endedBySignal h st → endedBySignal h st'.
Proof. unfold endedBySignal. intros -> ->. done. Qed.

Lemma startBot_running_frame message scriptExists st :
  childRunning st = true →
  child (startBot message scriptExists st) = child st
  ∧ procs (startBot message scriptExists st) = procs st.
Proof.
  intros Hrun. rewrite (startBot_running _ _ _ Hrun). unfold announced.
  by destruct (truthy message).
Qed.

Lemma close_frame code signal st :
  child (onChildClose code signal st) = child st
  ∧ procs (onChildClose code signal st) = procs st.
Proof.
  unfold onChildClose, logger.
  match goal with
  | |- context [restarting (emit ?l st)] =>
      change (restarting (emit l st)) with (restarting st)
  end.
  destruct (restarting st); [done|].
  match goal with
  | |- context [scheduleRestartWithBackoff ?r ?s] =>
      by destruct (schedule_frame r s) as (-> & -> & _)
  end.
Qed.

Lemma endedBySignal_update h h' p' st :
  h' ≠ h → endedBySignal h st →
  endedBySignal h (set_procs (<[h' := p']> (procs st)) st).
Proof.
  intros Hne (Hc & p & Hp & Hrest). split; [exact Hc|]. exists p.
  cbn [procs set_procs]. by rewrite lookup_insert_ne.
Qed.

Lemma endedBySignal_shutdown h signal st :
  endedBySignal h st → endedBySignal h (shutdown signal st).
Proof.
  intros H. unfold shutdown.
  set (st1 := match restartTimer _ with Some t => _ | None => _ end).
  assert (H1 : endedBySignal h st1).
  { subst st1. simpl. destruct (restartTimer st); exact H. }
  clearbody st1. destruct (childRunning st1); [|exact H1].
  pose proof H1 as (Hc & p & Hp & _ & _ & Hex). rewrite Hc.
  unfold terminate, kill. rewrite Hp, Hex. exact H1.
Qed.

Lemma endedBySignal_step h ev st st' :
  endedBySignal h st → step ev st = Some st' → endedBySignal h st'.
Proof.
  intros H Hstep. pose proof (endedBySignal_running h st H) as Hrun.
  pose proof H as (Hc & p & Hp & Hk & He & Hex).
  destruct ev; simpl in Hstep.
  - simplify_eq.
    destruct (startBot_running_frame message scriptExists st Hrun).
    by apply (endedBySignal_frame h st).
  - destruct (timers st !! t); simplify_eq.
    unfold restartTimerCallback, deferredStart.
    match goal with
    | |- context [startBot None ?e ?s] =>
        destruct (startBot_running_frame None e s Hrun)
    end.
    by apply (endedBySignal_frame h st).
  - repeat case_match; simplify_eq. exact H.
  - destruct (procs st !! h0) as [p0|] eqn:Hp0; [|done].
    destruct (hasExited p0) eqn:Hex0; simplify_eq.
    apply (endedBySignal_frame h
             (set_procs (<[h0 := recordExit (inl errno) p0]> (procs st)) st));
      [done|done|].
    apply endedBySignal_update; [|done]. intros ->. congruence.
  - destruct (procs st !! h0) as [p0|] eqn:Hp0; [|done].
    destruct (hasExited p0) eqn:Hex0; simplify_eq.
    apply (endedBySignal_frame h
             (set_procs (<[h0 := recordExit status p0]> (procs st)) st));
      [done|done|].
    apply endedBySignal_update; [|done]. intros ->. congruence.
  - destruct (procs st !! h0) as [p0|] eqn:Hp0; [|done].
    destruct (hasExited p0 && negb (closed p0)); simplify_eq.
    match goal with
    | |- context [onChildClose ?c ?g ?s] =>
        destruct (close_frame c g s) as (Hcc & Hcp)
    end.
    apply (endedBySignal_frame h
             (set_procs (<[h0 := markClosed p0]> (procs st)) st));
      [done|done|].
    destruct (decide (h0 = h)) as [->|Hne];
      [|by apply endedBySignal_update].
    rewrite Hp in Hp0. injection Hp0 as <-.
    split; [exact Hc|]. exists (markClosed p).
    cbn [procs set_procs]. by rewrite lookup_insert_eq.
  - simplify_eq. by apply endedBySignal_shutdown.
  - simplify_eq. exact H.
  - simplify_eq. unfold onServerError. destruct (String.eqb _ _); exact H.
Qed.

Lemma run_out evs st st' :
  run evs st = Some st' → ∃ news, out st' = out st ++ news.
Proof.
  revert st. induction evs as [|ev evs IH]; simpl; intros st Hrun.
  - simplify_eq. exists []. by rewrite app_nil_r.
  - destruct (step ev st) as [st1|] eqn:Hstep; [|done].
    destruct (step_effects _ _ _ Hstep) as (n1 & Ho1 & _).
    destruct (IH st1 Hrun) as (n2 & Ho2). exists (n1 ++ n2).
    by rewrite Ho2, Ho1, app_assoc.
Qed.

Lemma newEffects_trans st st1 st' :
  (∃ n1, out st1 = out st ++ n1) → (∃ n2, out st' = out st1 ++ n2) →
  newEffects st st' = newEffects st st1 ++ newEffects st1 st'.
Proof.
  intros [n1 H1] [n2 H2].
  rewrite (newEffects_app st st1 n1 H1), (newEffects_app st1 st' n2 H2).
  apply newEffects_app. by rewrite H2, H1, app_assoc.
Qed.

Lemma endedBySignal_run h evs st st' :
  endedBySignal h st → run evs st = Some st' →
  endedBySignal h st' ∧ spawned (newEffects st st') = [].
Proof.
  revert st. induction evs as [|ev evs IH]; simpl; intros st H Hrun.
  - simplify_eq. split; [done|]. unfold newEffects. by rewrite drop_all.
  - destruct (step ev st) as [st1|] eqn:Hstep; [|done].
    destruct (IH st1 (endedBySignal_step _ _ _ _ H Hstep) Hrun) as [H' Hs'].
    split; [done|].
    destruct (step_effects _ _ _ Hstep) as (n1 & Ho1 & _).
    rewrite (newEffects_trans st st1 st'); [|eauto|by apply (run_out evs)].
    rewrite spawned_app, Hs', (spawned_step _ _ _ Hstep), app_nil_r.
    replace (spawnsChild ev st) with false; [done|].
    destruct ev; try done; cbn [spawnsChild];
      by rewrite (endedBySignal_running h st H).
Qed.

(** When the child held in [child] is ended by a signal that the launcher
    did not send (a crash, an out-of-memory kill), Node leaves its
    [exitCode] at [null], so it keeps passing the test of [startBot]: from
    then on, whatever happens (the restart timer firing, further calls of
    [startBot], a shutdown request), [child] still holds the dead process
    and no process is ever spawned again. *)
Theorem signalled_child_is_never_replaced h p signal st st1 evs st' :
  child st = Some h → procs st !! h = Some p →
  killed p = false → hasExited p = false →
  step (EvChildExit h (inr signal)) st = Some st1 →
  run evs st1 = Some st' →
  childRunning st' = true ∧ child st' = Some h
  ∧ (∃ p', procs st' !! h = Some p' ∧ hasExited p' = true)
  ∧ spawned (newEffects st1 st') = [].
Proof.
  intros Hc Hp Hk Hex Hstep Hrun.
  assert (H1 : endedBySignal h st1).
  { cbn [step] in Hstep. rewrite Hp, Hex in Hstep. simplify_eq.
    split; [exact Hc|]. exists (recordExit (inr signal) p).
    cbn [procs onChildExit logger emit set_procs].
    rewrite lookup_insert_eq. split; [done|]. split; [done|].
    split; [|apply hasExited_recordExit].
    unfold hasExited in Hex. cbn. by destruct (exitCode p). }
  destruct (endedBySignal_run h evs st1 st' H1 Hrun) as [H' Hs].
  split; [by apply (endedBySignal_running h)|].
  destruct H' as (Hc' & p' & Hp' & _ & _ & Hex').
  split; [done|]. split; [eauto|done].
Qed.

Lemma signalled_child_is_never_replaced_witness :
  ∃ st st1 st',
    run [EvStart None true] launched = Some st
    ∧ step (EvChildExit 1 (inr "SIGSEGV")) st = Some st1
    ∧ run [EvChildClose 1; EvTimer 1 true; EvStart (Some "again") true] st1
      = Some st'
    ∧ childRunning st' = true
    ∧ spawned (newEffects st1 st') = [].
Proof.
  eexists. eexists. eexists. split; [vm_compute; reflexivity|].
  split; [vm_compute; reflexivity|]. split; [vm_compute; reflexivity|].
  match goal with
  | |- childRunning ?c = true ∧ spawned (newEffects ?b ?c) = [] =>
      destruct (signalled_child_is_never_replaced 1 newProc "SIGSEGV"
                  (started 1 launched) b
                  [EvChildClose 1; EvTimer 1 true;
                   EvStart (Some "again") true] c)
        as (H1 & _ & _ & H2); try (vm_compute; reflexivity);
        [split; [exact H1|exact H2]]
  end.
Defined.

(** ** How the process table evolves *)

Lemma startBot_procs message scriptExists st :
  procs (startBot message scriptExists st)
  = (if negb (childRunning st) && scriptExists
     then <[fresh (dom (procs st)) := newProc]> (procs st)
     else procs st)
  ∧ child (startBot message scriptExists st)
    = if childRunning st then child st
      else if scriptExists then Some (fresh (dom (procs st))) else None.
Proof.
  assert (Ha : procs (announced message st) = procs st
               ∧ child (announced message st) = child st)
    by (unfold announced; by destruct (truthy message)).
  destruct Ha as [Hap Hac].
  destruct (childRunning st) eqn:Hrun; simpl.
  - rewrite (startBot_running _ _ _ Hrun). by split.
  - destruct scriptExists.
    + rewrite (startBot_spawned _ _ Hrun).
      cbn [started child procs set_countRestart set_currentDelay set_child
           emit set_procs]. by rewrite Hap.
    + rewrite (startBot_not_found _ _ Hrun).
      match goal with
      | |- context [scheduleRestartWithBackoff ?r ?s] =>
          destruct (schedule_frame r s) as (-> & -> & _)
      end.
      by split.
Qed.

Lemma shutdown_procs signal st :
  child (shutdown signal st) = child st
  ∧ (procs (shutdown signal st) = procs st
     ∨ ∃ h p, child st = Some h ∧ procs st !! h = Some p
              ∧ hasExited p = false
              ∧ procs (shutdown signal st)
                = <[h := {| killed := true; exitCode := exitCode p;
                            signalCode := signalCode p;
                            closed := closed p |}]> (procs st)
              ∧ kills (newEffects st (shutdown signal st)) ≠ []).
Proof.
  unfold shutdown.
  set (st1 := match restartTimer _ with Some t => _ | None => _ end).
  assert (H1 : child st1 = child st ∧ procs st1 = procs st
               ∧ ∃ n1, out st1 = out st ++ n1).
  { subst st1. simpl. destruct (restartTimer st); simpl.
    - split; [done|]. split; [done|]. eauto.
    - split; [done|]. split; [done|]. exists []. by rewrite app_nil_r. }
  destruct H1 as (Hc & Hp & n1 & Ho). clearbody st1.
  destruct (childRunning st1); [|split; [cbn [child emit]; congruence|left; cbn [procs emit]; congruence]].
  destruct (child st1) as [h|] eqn:Hch; [|split; [cbn [child emit]; congruence|left; cbn [procs emit]; congruence]].
  unfold terminate, kill. destruct (procs st1 !! h) as [p|] eqn:Hph;
    [|split; [cbn [child emit]; congruence|left; cbn [procs emit]; congruence]].
  destruct (hasExited p) eqn:Hex; [split; [cbn [child emit]; congruence|left; cbn [procs emit]; congruence]|].
  split; [cbn [child emit set_procs]; congruence|]. right. exists h, p. rewrite <- Hc, <- Hp.
  split; [done|]. split; [done|]. split; [done|]. split; [done|].
  rewrite (newEffects_app _ _ (n1 ++ [Kill h signal])).
  - clear. induction n1 as [|[] n1 IH]; simpl; done.
  - cbn [out emit set_procs]. by rewrite Ho, app_assoc.
Qed.

(** During one event every process object either is new, or moves as
    [procMove] says; and one that becomes [killed] was sent a signal by
    this handler. *)
Lemma procs_step ev st st' h p' :
  step ev st = Some st' → procs st' !! h = Some p' →
  match procs st !! h with
  | Some p =>
      procMove p p'
      ∧ (killed p = false → killed p' = true →
         kills (newEffects st st') ≠ [])
  | None => p' = newProc
  end.
Proof.
  assert (Hstay : ∀ s, procs s = procs st → procs s !! h = Some p' →
                       match procs st !! h with
                       | Some p =>
                           procMove p p'
                           ∧ (killed p = false → killed p' = true →
                              kills (newEffects st st') ≠ [])
                       | None => p' = newProc
                       end).
  { intros s -> ->. split; [constructor|congruence]. }
  assert (Hins : ∀ s h0 p0 p1,
            procs st !! h0 = Some p0 → procMove p0 p1 →
            killed p1 = killed p0 →
            procs s = <[h0 := p1]> (procs st) → procs s !! h = Some p' →
            match procs st !! h with
            | Some p =>
                procMove p p'
                ∧ (killed p = false → killed p' = true →
                   kills (newEffects st st') ≠ [])
            | None => p' = newProc
            end).
  { intros s h0 p0 p1 Hp0 Hmove Hk -> Hp'.
    destruct (decide (h = h0)) as [->|Hne].
    - rewrite lookup_insert_eq in Hp'. simplify_eq. rewrite Hp0.
      split; [done|congruence].
    - rewrite lookup_insert_ne in Hp' by done. rewrite Hp'.
      split; [constructor|congruence]. }
  assert (Hstart : ∀ m e s,
            procs s = procs st → childRunning s = childRunning st →
            procs (startBot m e s) !! h = Some p' →
            match procs st !! h with
            | Some p =>
                procMove p p'
                ∧ (killed p = false → killed p' = true →
                   kills (newEffects st st') ≠ [])
            | None => p' = newProc
            end).
  { intros m e s Hps Hrs Hp'.
    destruct (startBot_procs m e s) as [Hprocs _]. rewrite Hprocs in Hp'.
    rewrite Hps, Hrs in Hp'.
    destruct (negb (childRunning st) && e); [|by apply (Hstay st)].
    destruct (decide (h = fresh (dom (procs st)))) as [->|Hne].
    - rewrite lookup_insert_eq in Hp'. simplify_eq.
      assert (Hnone : procs st !! fresh (dom (procs st)) = None)
        by (apply not_elem_of_dom, is_fresh).
      by rewrite Hnone.
    - rewrite lookup_insert_ne in Hp' by done. by apply (Hstay st). }
  intros Hstep Hp'. destruct ev; simpl in Hstep.
  - simplify_eq. by apply (Hstart message scriptExists st).
  - destruct (timers st !! t); simplify_eq.
    unfold restartTimerCallback, deferredStart in Hp'.
    match type of Hp' with
    | context [startBot None ?e ?s] =>
        apply (Hstart None e s); [done|done|exact Hp']
    end.
  - destruct (procs st !! h0) as [p0|] eqn:Hp0; [|done].
    destruct (hasExited p0) eqn:Hex0; simplify_eq.
    by apply (Hstay (onChildSpawn pid st)).
  - destruct (procs st !! h0) as [p0|] eqn:Hp0; [|done].
    destruct (hasExited p0) eqn:Hex0; simplify_eq.
    eapply (Hins _ h0 p0 (recordExit (inl errno) p0) Hp0 (MoveExit _ _ Hex0));
      [reflexivity| |exact Hp']; reflexivity.
  - destruct (procs st !! h0) as [p0|] eqn:Hp0; [|done].
    destruct (hasExited p0) eqn:Hex0; simplify_eq.
    eapply (Hins _ h0 p0 (recordExit status p0) Hp0 (MoveExit _ _ Hex0));
      [by destruct status| |exact Hp']; reflexivity.
  - destruct (procs st !! h0) as [p0|] eqn:Hp0; [|done].
    destruct (hasExited p0 && negb (closed p0)) eqn:Hb; simplify_eq.
    apply andb_prop in Hb as [Hb1 Hb2]. apply negb_true_iff in Hb2.
    match type of Hp' with
    | context [onChildClose ?c ?g ?s] =>
        destruct (close_frame c g s) as (_ & Hcp)
    end.
    eapply (Hins _ h0 p0 (markClosed p0) Hp0 (MoveClose _ Hb1 Hb2));
      [reflexivity| |exact Hp']; exact Hcp.
  - simplify_eq. destruct (shutdown_procs signal st) as (_ & [Hsame|Hkill]).
    + by apply (Hstay (shutdown signal st)).
    + destruct Hkill as (h0 & p0 & _ & Hp0 & Hex0 & Hprocs & Hkills).
      rewrite Hprocs in Hp'.
      destruct (decide (h = h0)) as [->|Hne].
      * rewrite lookup_insert_eq in Hp'. simplify_eq. rewrite Hp0.
        split; [by constructor|done].
      * rewrite lookup_insert_ne in Hp' by done. rewrite Hp'.
        split; [constructor|congruence].
  - simplify_eq. by apply (Hstay st).
  - simplify_eq. apply (Hstay (onServerError code message st)); [|done].
    unfold onServerError. by destruct (String.eqb _ _).
Qed.

Lemma kills_app es1 es2 : kills (es1 ++ es2) = kills es1 ++ kills es2.
Proof.
  induction es1 as [|[] es1 IH]; simpl; [done|..]; by rewrite ?IH.
Qed.

Lemma closedInv_step ev st st' :
  closedInv st → step ev st = Some st' → closedInv st'.
Proof.
  intros Hinv Hstep h p' Hp' Hcl.
  pose proof (procs_step ev st st' h p' Hstep Hp') as Hmove.
  destruct (procs st !! h) as [p|] eqn:Hp; [|by subst].
  destruct Hmove as [Hmove _]. destruct Hmove as [p|p status Hex|p Hex Hc|p Hex].
  - eauto.
  - apply hasExited_recordExit.
  - exact Hex.
  - rewrite <- (Hinv h p Hp Hcl). reflexivity.
Qed.

Lemma closedInv_reachable st : reachable st → closedInv st.
Proof.
  apply reachable_invariant; [|apply closedInv_step].
  intros envPort path h p Hp. cbn [init procs] in Hp.
  by rewrite lookup_empty in Hp.
Qed.

Lemma killedInv_step ev st st' :
  killedInv st → step ev st = Some st' → killedInv st'.
Proof.
  intros Hinv Hstep h p' Hp' Hk.
  destruct (step_effects _ _ _ Hstep) as (news & Ho & _).
  pose proof (procs_step ev st st' h p' Hstep Hp') as Hmove.
  rewrite (newEffects_app _ _ _ Ho) in Hmove. rewrite Ho, kills_app.
  destruct (procs st !! h) as [p|] eqn:Hp; [|by subst].
  destruct Hmove as [_ Hsent]. destruct (killed p) eqn:Hkp.
  - specialize (Hinv h p Hp Hkp). by destruct (kills (out st)).
  - specialize (Hsent eq_refl Hk).
    destruct (kills news); [done|]. by destruct (kills (out st)).
Qed.

Lemma killedInv_reachable st : reachable st → killedInv st.
Proof.
  apply reachable_invariant; [|apply killedInv_step].
  intros envPort path h p Hp. cbn [init procs] in Hp.
  by rewrite lookup_empty in Hp.
Qed.

(** As long as the launcher has sent no signal to a child, at most one
    child process is alive, and it is the one held in [child]. *)
Theorem one_child_alive_without_signals st :
  reachable st → kills (out st) = [] →
  (length (liveHandles st) ≤ 1)%nat
  ∧ ∀ h, h ∈ liveHandles st → child st = Some h.
Proof.
  intros Hr Hnone.
  pose proof (procInv_reachable st Hr) as Hinv.
  pose proof (killedInv_reachable st Hr) as Hkinv.
  assert (Hall : ∀ h, h ∈ liveHandles st → child st = Some h).
  { intros h Hh. unfold liveHandles in Hh.
    apply list_elem_of_fmap in Hh as ([h' p] & -> & Hin).
    apply elem_of_map_to_list, map_lookup_filter_Some in Hin as [Hp Hex].
    simpl in *. apply (Hinv h' p Hp Hex).
    destruct (killed p) eqn:Hk; [|done].
    destruct (Hkinv h' p Hp Hk Hnone). }
  split; [|exact Hall].
  destruct (child st) as [c|] eqn:Hc.
  - apply (length_le_1_of_all_eq _ c).
    + apply NoDup_fst_map_to_list.
    + intros h Hh. specialize (Hall h Hh). by simplify_eq.
  - destruct (liveHandles st) as [|h l] eqn:Hl; simpl; [lia|].
    assert (Hh : h ∈ h :: l) by set_solver.
    discriminate (Hall h Hh).
Qed.

Lemma one_child_alive_without_signals_witness :
  ∃ st, run [EvStart None true; EvChildExit 1 (inl 1%Z); EvChildClose 1;
             EvTimer 1 true; EvStart (Some "again") true] launched = Some st
        ∧ (length (liveHandles st) ≤ 1)%nat.
Proof.
  eexists. split; [vm_compute; reflexivity|].
  match goal with
  | |- (length (liveHandles ?a) ≤ 1)%nat =>
      apply (one_child_alive_without_signals a); [|vm_compute; reflexivity]
  end.
  apply (reachable_run
           [EvStart None true; EvChildExit 1 (inl 1%Z); EvChildClose 1;
            EvTimer 1 true; EvStart (Some "again") true] launched);
    [apply reachable_launched|vm_compute; reflexivity].
Defined.

(** ** The end of a child *)

Lemma close_not_restarting code signal st :
  restarting st = false →
  onChildClose code signal st
  = scheduleRestartWithBackoff
      [Txt "Child exited (code="; Val (ofCode code); Txt ")"]
      (logger [Txt "Child closed. code="; Val (ofCode code);
               Txt " signal="; Val (ofSignal signal)] "[ Child ]" st).
Proof.
  intros H. unfold onChildClose.
  set (s := logger _ "[ Child ]" st).
  assert (Hs : restarting s = false) by exact H.
  by rewrite Hs.
Qed.

(** The end of any process the launcher spawned is handled in two events.
    ['exit'] only logs: it schedules nothing and leaves the timers as they
    are.  ['close'] then schedules exactly one restart, replacing a pending
    one if there is any, so that exactly one timer is armed afterwards;
    neither spawns a process.  This holds for the current child and for an
    older process alike. *)
Theorem child_end_schedules_once h p status st :
  reachable st → restarting st = false →
  procs st !! h = Some p → hasExited p = false →
  ∃ st1 st2,
    step (EvChildExit h status) st = Some st1
    ∧ scheduledDelays (newEffects st st1) = []
    ∧ spawned (newEffects st st1) = []
    ∧ timers st1 = timers st ∧ restartTimer st1 = restartTimer st
    ∧ step (EvChildClose h) st1 = Some st2
    ∧ length (scheduledDelays (newEffects st1 st2)) = 1%nat
    ∧ size (timers st2) = 1%nat
    ∧ spawned (newEffects st1 st2) = [].
Proof.
  intros Hr Hrest Hp Hex.
  pose proof (timerInv_reachable st Hr) as Hti.
  assert (Hcl : closed p = false).
  { destruct (closed p) eqn:Hc; [|done].
    by rewrite (closedInv_reachable st Hr h p Hp Hc) in Hex. }
  set (p1 := recordExit status p).
  set (st1 := onChildExit (exitCode p1) (signalCode p1)
                (set_procs (<[h := p1]> (procs st)) st)).
  assert (Hstep1 : step (EvChildExit h status) st = Some st1)
    by (cbn [step]; by rewrite Hp, Hex).
  assert (Hp1 : procs st1 !! h = Some p1) by apply lookup_insert_eq.
  set (st2 := onChildClose (exitCode p1) (signalCode p1)
                (set_procs (<[h := markClosed p1]> (procs st1)) st1)).
  assert (Hstep2 : step (EvChildClose h) st1 = Some st2).
  { cbn [step]. rewrite Hp1. unfold p1 at 1 2.
    rewrite hasExited_recordExit.
    replace (closed (recordExit status p)) with false by (by destruct status).
    reflexivity. }
  exists st1, st2. split; [done|].
  split; [unfold newEffects, st1, onChildExit; cbn [out logger emit set_procs];
          by rewrite drop_app_length|].
  split; [unfold newEffects, st1, onChildExit; cbn [out logger emit set_procs];
          by rewrite drop_app_length|].
  split; [done|]. split; [done|]. split; [done|].
  split; [|split].
  3:{ unfold st2.
      match goal with
      | |- context [onChildClose ?c ?g ?s] => exact (spawned_close c g s)
      end. }
  - unfold st2. rewrite close_not_restarting by exact Hrest.
    match goal with
    | |- context [scheduleRestartWithBackoff ?r ?s] =>
        destruct (schedule_effects r s) as (news & Ho & Hd & _ & _)
    end.
    cbn [out logger emit set_procs] in Ho. rewrite <- app_assoc in Ho.
    rewrite (newEffects_app _ _ _ Ho). cbn [app scheduledDelays].
    by rewrite Hd.
  - unfold st2. rewrite close_not_restarting by exact Hrest.
    match goal with
    | |- context [scheduleRestartWithBackoff ?r ?s] =>
        destruct (schedule_timers r s Hti) as (t & _ & ->)
    end.
    apply map_size_singleton.
Qed.

Lemma child_end_schedules_once_witness :
  ∃ st, run [EvStart None true] launched = Some st
        ∧ ∃ st1 st2,
            step (EvChildExit 1 (inr "SIGSEGV")) st = Some st1
            ∧ step (EvChildClose 1) st1 = Some st2
            ∧ size (timers st2) = 1%nat.
Proof.
  eexists. split; [vm_compute; reflexivity|].
  match goal with
  | |- ∃ st1 st2, step _ ?a = _ ∧ _ =>
      destruct (child_end_schedules_once 1 newProc (inr "SIGSEGV") a)
        as (st1 & st2 & H1 & _ & _ & _ & _ & H2 & _ & H3 & _);
        [|reflexivity|reflexivity|reflexivity|by exists st1, st2]
  end.
  apply (reachable_run [EvStart None true] launched);
    [apply reachable_launched|vm_compute; reflexivity].
Defined.

(** ** A spawn that raises *)

(** When the [spawn] call returns a process with its pipes, when the script
    is missing and when a child is running, [startBotR] returns, in the
    state that [startBot] gives. *)
Lemma startBotR_returns message scriptExists r st :
  r = SpawnReturns ∨ scriptExists = false ∨ childRunning st = true →
  startBotR message scriptExists r st
  = Returned (startBot message scriptExists st).
Proof.
  unfold startBotR, startBot, spawnChildR, spawnChild.
  intros H. fold (announced message st).
  rewrite childRunning_announced.
  destruct (childRunning st); [done|].
  destruct scriptExists; [|done].
  destruct H as [->|[H|H]]; done.
Qed.

(** C4.  The launcher does not handle every spawn failure.  When a spawn
    attempt is made and the [spawn] call throws, or returns a process
    without its pipes, [startBot] raises the exception to its caller: it
    has logged the message it was given, and nothing else has happened;
    [child] is not assigned, no restart is scheduled and no timer is
    armed. *)
Theorem spawn_exception_reaches_caller message r st :
  childRunning st = false → r ≠ SpawnReturns →
  ∃ e, startBotR message true r st = Raised e (announced message st)
       ∧ e = match r with
             | SpawnThrows errno => SpawnException errno
             | _ => StdoutTypeError
             end
       ∧ child (announced message st) = child st
       ∧ timers (announced message st) = timers st
       ∧ restartTimer (announced message st) = restartTimer st
       ∧ scheduledDelays (newEffects st (announced message st)) = []
       ∧ spawned (newEffects st (announced message st)) = [].
Proof.
  intros Hrun Hr.
  destruct (announced_frame message st) as (Hat & Hart & _).
  destruct (out_announced message st) as (logs & Hlogs & Hsp & Hsd).
  rewrite (newEffects_app _ _ _ Hlogs).
  assert (Hc : child (announced message st) = child st)
    by (unfold announced; by destruct (truthy message)).
  unfold startBotR, spawnChildR. fold (announced message st).
  rewrite childRunning_announced, Hrun. cbn [negb].
  destruct r; [done|..]; eexists; repeat split; done.
Qed.

Lemma spawn_exception_reaches_caller_witness :
  startBotR None true (SpawnThrows (-12)) launched
  = Raised (SpawnException (-12)) launched
  ∧ startBotR None true (SpawnNoPipes (-24)) launched
    = Raised StdoutTypeError launched
  ∧ timers launched = ∅.
Proof.
  destruct (spawn_exception_reaches_caller None (SpawnThrows (-12)) launched)
    as (e1 & H1 & -> & _); [reflexivity|done|].
  destruct (spawn_exception_reaches_caller None (SpawnNoPipes (-24)) launched)
    as (e2 & H2 & -> & _); [reflexivity|done|].
  split; [exact H1|]. split; [exact H2|reflexivity].
Defined.
